(** * AInt: arbitrary precision unsigned integers backed by a list of booleans

    A shallow embedding of the class [AInt] of [test_lab1.py] and the
    properties of its arithmetic.  Objects are records holding the two
    Python lists [bits] (least significant bit first) and [buf]; methods
    that can raise or recurse return in the [result] monad. *)

From Stdlib Require Import String Ascii List Bool Arith ZArith Lia.
Import ListNotations.
Open Scope Z_scope.

(** ** Outcomes of a Python call *)

Inductive exn : Type :=
| AssertionError
| IndexError.

Inductive result (A : Type) : Type :=
| Ok (a : A)
| Raise (e : exn)
| OutOfFuel.

Arguments Ok {A} a.
Arguments Raise {A} e.
Arguments OutOfFuel {A}.

Definition bind {A B : Type} (c : result A) (k : A -> result B) : result B :=
  match c with
  | Ok a => k a
  | Raise e => Raise e
  | OutOfFuel => OutOfFuel
  end.

Notation "'let*' x ':=' c 'in' k" := (bind c (fun x => k))
  (at level 10, x pattern, c at level 100, k at level 200).

Definition returns {A : Type} (c : result A) : Prop := exists a, c = Ok a.
Definition fails {A : Type} (c : result A) : Prop := exists e, c = Raise e.

(** ** Python values met by the constructor

    [AInt(s)] iterates over [s] and compares every item with the string
    ['1'].  The item is a one-character string when [s] is a [str], and a
    [bool] when a list of booleans is passed in the position of [s]. *)

Inductive pyitem : Type :=
| PyChr (c : ascii)
| PyBool (b : bool).

(** [si == '1'] *)
Definition eq_one (si : pyitem) : bool :=
  match si with
  | PyChr c => Ascii.eqb c "1"%char
  | PyBool _ => false
  end.

Definition of_str (s : string) : list pyitem := map PyChr (list_ascii_of_string s).
Definition of_bools (l : list bool) : list pyitem := map PyBool l.

(** ** Helpers for Python built-ins *)

(** [zip_longest(l1, l2, fillvalue=fill)] *)
Fixpoint zip_longest (l1 l2 : list bool) (fill : bool) : list (bool * bool) :=
  match l1 with
  | [] => map (fun b => (fill, b)) l2
  | a :: t1 =>
      match l2 with
      | [] => (a, fill) :: zip_longest t1 [] fill
      | b :: t2 => (a, b) :: zip_longest t1 t2 fill
      end
  end.

(** [l.pop()]: the list without its last item, [None] for IndexError. *)
Definition list_pop (l : list bool) : option (list bool) :=
  match l with
  | [] => None
  | _ :: _ => Some (removelast l)
  end.

(** items of [l] at the indices [skip], [skip + step], ... *)
Fixpoint stride (step skip : nat) (l : list bool) : list bool :=
  match l with
  | [] => []
  | x :: t =>
      match skip with
      | O => x :: stride step (step - 1) t
      | S k => stride step k t
      end
  end.

(** [l[:stop:step]] for a positive [step] *)
Definition slice_step (l : list bool) (stop step : nat) : list bool :=
  stride step 0 (firstn stop l).

(** comparison [x < y] of two tuples of booleans *)
Fixpoint tuple_lt (x y : list bool) : bool :=
  match x, y with
  | _, [] => false
  | [], _ :: _ => true
  | a :: x', b :: y' => if Bool.eqb a b then tuple_lt x' y' else negb a && b
  end.

Fixpoint tuple_eq (x y : list bool) : bool :=
  match x, y with
  | [], [] => true
  | a :: x', b :: y' => Bool.eqb a b && tuple_eq x' y'
  | _, _ => false
  end.

(** ** The class *)

Module AInt.

Record t : Type := mk { bits : list bool; buf : list bool }.

(** [append]: the bit goes to [buf]; a true bit flushes [buf] into [bits]. *)
Definition append (self : t) (b : bool) : t :=
  let buf' := buf self ++ [b] in
  if b then mk (bits self ++ buf') [] else mk (bits self) buf'.

Definition __init__ (s : option (list pyitem)) (bits0 : option (list bool)) : t :=
  let bits1 :=
    match s with
    | Some s' => Some (map eq_one (rev s'))
    | None => bits0
    end in
  let bits2 :=
    match bits1 with
    | None => []
    | Some l => l
    end in
  fold_left append bits2 (mk [] []).

(** [AInt()], [AInt(s)] for a string, [AInt(bits=l)] *)
Definition new : t := __init__ None None.
Definition of_string (s : string) : t := __init__ (Some (of_str s)) None.
Definition of_bits (l : list bool) : t := __init__ None (Some l).

Definition __len__ (self : t) : nat := length (bits self).

Definition __repr__ (self : t) : string :=
  if negb (0 <? length (bits self))%nat then "0"%string
  else string_of_list_ascii
         (map (fun v : bool => if v then "1"%char else "0"%char) (rev (bits self))).

Fixpoint int_from (i : nat) (l : list bool) : Z :=
  match l with
  | [] => 0
  | v :: l' => Z.shiftl (Z.b2z v) (Z.of_nat i) + int_from (S i) l'
  end.

(** [sum(v << i for i, v in enumerate(self.bits))] *)
Definition __int__ (self : t) : Z := int_from 0 (bits self).

(** [(a != b) != c] and [(a and b) or (b and c) or (a and c)] *)
Definition sum_bit (a b c : bool) : bool := negb (Bool.eqb (negb (Bool.eqb a b)) c).
Definition carry_bit (a b c : bool) : bool := (a && b) || (b && c) || (a && c).

Definition add_step (st : t * bool) (ab : bool * bool) : t * bool :=
  let '(out, c) := st in
  let '(a, b) := ab in
  (append out (sum_bit a b c), carry_bit a b c).

Definition __add__ (self other : t) : t :=
  let '(out, c) :=
    fold_left add_step (zip_longest (bits self) (bits other) false) (new, false) in
  append out c.

Definition fhalf (self : t) : t := of_bits (tl (bits self)).

Definition twice (self : t) : t := of_bits (false :: bits self).

(** [len(self) and self.bits[0]], as a truth value *)
Definition isodd (self : t) : bool :=
  match bits self with
  | [] => false
  | b :: _ => b
  end.

(** the [while] loop of [remove_leading_zeros], at most [n] iterations *)
Fixpoint pop_zeros (n : nat) (l : list bool) : list bool :=
  match n with
  | O => l
  | S n' =>
      if (0 <? length l)%nat && negb (last l false)
      then pop_zeros n' (removelast l)
      else l
  end.

Definition remove_leading_zeros (self : t) : t :=
  mk (pop_zeros (length (bits self)) (bits self)) [].

Definition __sub__ (self other : t) : result t :=
  if negb (length (bits other) <=? length (bits self))%nat then Raise AssertionError
  else
    let comp := map (fun ab : bool * bool => negb (snd ab))
                    (zip_longest (bits self) (bits other) false) in
    let out := __add__ (__add__ self (of_bits comp)) (of_string "1") in
    match list_pop (bits out) with
    | None => Raise IndexError
    | Some l => Ok (remove_leading_zeros (mk l (buf out)))
    end.

Definition __lt__ (self other : t) : bool :=
  (__len__ self <? __len__ other)%nat
  || ((__len__ self =? __len__ other)%nat
      && tuple_lt (rev (bits self)) (rev (bits other))).

Definition __eq__ (self other : t) : bool := tuple_eq (bits self) (bits other).

Definition __le__ (self other : t) : bool := __lt__ self other || __eq__ self other.

(** [r >= other]: [AInt] defines no [__ge__], so Python evaluates the
    reflected [other.__le__(r)]. *)
Definition ge (r other : t) : bool := __le__ other r.

(** [__mul__] and [oldmul] call each other; [fuel] bounds the depth of
    the calls. *)
Fixpoint __mul__ (fuel : nat) (self other : t) {struct fuel} : result t :=
  match fuel with
  | O => OutOfFuel
  | S f =>
      let n := Nat.max (__len__ self) (__len__ other) in
      if (n <=? 1)%nat then oldmul f self other
      else
        let m := (n / 2)%nat in
        let xl := __init__ (Some (of_bools (firstn m (bits self)))) None in
        let xr := __init__ (Some (of_bools (slice_step (bits self) m n))) None in
        let yl := __init__ (Some (of_bools (firstn m (bits other)))) None in
        let yr := __init__ (Some (of_bools (slice_step (bits other) m n))) None in
        let* p1 := __mul__ f xl yl in
        let* p2 := __mul__ f xr yr in
        let* p3 := __mul__ f (__add__ xl xr) (__add__ yl yr) in
        let raise_n := __init__ (Some (of_bools (repeat false (2 * m)))) None in
        let raise_m := __init__ (Some (of_bools (repeat false m))) None in
        let* d1 := __sub__ p3 p1 in
        let* d2 := __sub__ d1 p2 in
        Ok (__add__ (__add__ (__add__ raise_n p1) (__add__ raise_m d2)) p2)
  end
with oldmul (fuel : nat) (self other : t) {struct fuel} : result t :=
  match fuel with
  | O => OutOfFuel
  | S f =>
      if String.eqb (__repr__ other) "0" then Ok new
      else
        let* z := __mul__ f self (fhalf other) in
        if negb (isodd other) then Ok (twice z)
        else Ok (__add__ self (twice z))
  end.

(** [div]: [fuel] bounds the number of recursive calls. *)
Fixpoint div (fuel : nat) (self other : t) {struct fuel} : result (t * t) :=
  if String.eqb (__repr__ self) "0" then Ok (new, new)
  else
    match fuel with
    | O => OutOfFuel
    | S f =>
        let* qr := div f (fhalf self) other in
        let q := twice (fst qr) in
        let r := twice (snd qr) in
        let r := if isodd self then __add__ r (of_string "1") else r in
        if ge r other then
          let* r' := __sub__ r other in
          Ok (__add__ q (of_string "1"), r')
        else Ok (q, r)
    end.

Definition __floordiv__ (fuel : nat) (self other : t) : result t :=
  let* qr := div fuel self other in Ok (fst qr).

Definition __mod__ (fuel : nat) (self other : t) : result t :=
  let* qr := div fuel self other in Ok (snd qr).

End AInt.

Import AInt.

(** ** Values of bit lists *)

Definition value (a : t) : Z := __int__ a.

(** Horner form of the value of a little-endian bit list. *)
Fixpoint val (l : list bool) : Z :=
  match l with
  | [] => 0
  | b :: l' => Z.b2z b + 2 * val l'
  end.

Definition pow2 (n : nat) : Z := 2 ^ Z.of_nat n.

(** no most-significant false bit; the empty list is the value zero *)
Definition normalized (l : list bool) : Prop := last l true = true.

Definition all_false (l : list bool) : Prop := Forall (fun b => b = false) l.

(** the state kept by [append]: [bits] ends with a true bit and [buf]
    holds false bits only *)
Definition wf (a : t) : Prop := normalized (bits a) /\ all_false (buf a).

(** ** Definitions used to state the properties *)

(** the bits handed to [append] by [__add__], last carry included *)
Fixpoint ripple (c : bool) (zs : list (bool * bool)) : list bool :=
  match zs with
  | [] => [c]
  | (a, b) :: zs' => sum_bit a b c :: ripple (carry_bit a b c) zs'
  end.

(** The addition as the spec words it, position by position: the carry
    into position [i] and the result bit there. *)
Definition parity3 (a b c : bool) : bool := xorb (xorb a b) c.

Definition majority3 (a b c : bool) : bool :=
  (2 <=? Nat.b2n a + Nat.b2n b + Nat.b2n c)%nat.

Fixpoint carry_in (c0 : bool) (x y : list bool) (i : nat) : bool :=
  match i with
  | O => c0
  | S j => majority3 (nth j x false) (nth j y false) (carry_in c0 x y j)
  end.

Definition sum_at (c0 : bool) (x y : list bool) (i : nat) : bool :=
  parity3 (nth i x false) (nth i y false) (carry_in c0 x y i).

Definition spec_add_bits (x y : list bool) : list bool :=
  let n := Nat.max (length x) (length y) in
  map (sum_at false x y) (seq 0 n) ++ [carry_in false x y n].

(** the complement built by [__sub__]: the bits of [b], zero-extended
    to the width of [a], each negated *)
Definition complement (a b : t) : list bool :=
  map negb (bits b ++ repeat false (length (bits a) - length (bits b))).

(** the sum [self + AInt(bits=comp) + AInt('1')] of [__sub__] *)
Definition sub_sum (a b : t) : t :=
  __add__ (__add__ a (of_bits (complement a b))) (of_string "1").

(** the remainder before the correction step *)
Definition div_rem (a r : t) : t :=
  if isodd a then __add__ (twice r) (of_string "1") else twice r.

(** [AInt(s)] for a string [s], as a call: neither [__init__] nor
    [append] holds a [raise] or an operation that can fail on the
    characters of a string, so the call returns on every string. *)
Definition from_string (s : string) : result t := Ok (of_string s).

(** the bits read from a string: a character is a true bit when it is
    ['1'] and a false bit otherwise, last character first *)
Definition string_bits (s : string) : list bool :=
  map (fun c => Ascii.eqb c "1"%char) (rev (list_ascii_of_string s)).

(** a character other than ['0'] and ['1'] occurs in [s] *)
Definition non_binary (s : string) : Prop :=
  exists c, In c (list_ascii_of_string s) /\ c <> "0"%char /\ c <> "1"%char.

(** every character of [l] is ['0'] or ['1'] *)
Definition binary (l : list ascii) : Prop :=
  Forall (fun c => c = "0"%char \/ c = "1"%char) l.

(** a list of characters without its leading ['0'] characters *)
Fixpoint strip_zeros (l : list ascii) : list ascii :=
  match l with
  | [] => []
  | c :: l' => if Ascii.eqb c "0"%char then strip_zeros l' else l
  end.

(** the canonical literal of a binary string: no leading ['0'], and
    ["0"] when nothing else is left *)
Definition canonical (s : string) : string :=
  match strip_zeros (list_ascii_of_string s) with
  | [] => "0"%string
  | l => string_of_list_ascii l
  end.

(** the number read from a string, most significant character first,
    a character counting as 1 when it is ['1'] *)
Definition parse_step (acc : Z) (c : ascii) : Z :=
  2 * acc + Z.b2z (Ascii.eqb c "1"%char).

Definition parse (s : string) : Z :=
  fold_left parse_step (list_ascii_of_string s) 0.

(** the character written by [__repr__] for a bit *)
Definition bit_char (v : bool) : ascii := if v then "1"%char else "0"%char.

Section Values.

Lemma pow2_0 : pow2 0 = 1.
Proof. reflexivity. Qed.

Lemma pow2_S n : pow2 (S n) = 2 * pow2 n.
Proof. unfold pow2. rewrite Nat2Z.inj_succ, Z.pow_succ_r; lia. Qed.

Lemma pow2_pos n : 0 < pow2 n.
Proof. unfold pow2. apply Z.pow_pos_nonneg; lia. Qed.

Lemma pow2_le n m : (n <= m)%nat -> pow2 n <= pow2 m.
Proof. intros H. unfold pow2. apply Z.pow_le_mono_r; lia. Qed.

Lemma int_from_val i l : int_from i l = pow2 i * val l.
Proof.
  revert i. induction l as [|b l IH]; intros i; cbn [int_from]; cbn [val].
  - lia.
  - rewrite IH, pow2_S, Z.shiftl_mul_pow2 by lia. fold (pow2 i). ring.
Qed.

Lemma value_val a : value a = val (bits a).
Proof. unfold value, __int__. rewrite int_from_val, pow2_0. lia. Qed.

Lemma val_nonneg l : 0 <= val l.
Proof. induction l as [|b l IH]; cbn [val]; [|destruct b; cbn [Z.b2z]]; lia. Qed.

Lemma val_lt_pow2 l : val l < pow2 (length l).
Proof.
  induction l as [|b l IH]; cbn [length]; [rewrite pow2_0 | rewrite pow2_S];
    cbn [val]; [lia|]. destruct b; cbn [Z.b2z]; lia.
Qed.

Lemma val_app l1 l2 : val (l1 ++ l2) = val l1 + pow2 (length l1) * val l2.
Proof.
  induction l1 as [|b l1 IH]; cbn [app]; cbn [length]; cbn [val].
  - rewrite pow2_0. lia.
  - rewrite IH, pow2_S. ring.
Qed.

Lemma val_all_false l : all_false l -> val l = 0.
Proof. induction 1 as [|b l Hb _ IH]; cbn [val]; [|subst b; cbn [Z.b2z]]; lia. Qed.

Lemma val_repeat_false n : val (repeat false n) = 0.
Proof. induction n; cbn [repeat val Z.b2z]; lia. Qed.

Lemma normalized_nil : normalized [].
Proof. reflexivity. Qed.

Lemma normalized_snoc l : normalized (l ++ [true]).
Proof. unfold normalized. apply last_last. Qed.

Lemma normalized_tl l : normalized l -> normalized (tl l).
Proof. unfold normalized. destruct l as [|b [|c l]]; simpl; auto. Qed.

(** A non-empty normalized list of [n] bits has its value in
    [2^(n-1), 2^n). *)
Lemma normalized_lower b l : normalized (b :: l) -> pow2 (length l) <= val (b :: l).
Proof.
  revert b. induction l as [|c l IH]; intros b H.
  - unfold normalized in H. simpl in H. subst b. cbn [val length Z.b2z]. rewrite pow2_0. lia.
  - assert (Hc : normalized (c :: l)) by exact H.
    specialize (IH c Hc). cbn [length]. rewrite pow2_S.
    change (val (b :: c :: l)) with (Z.b2z b + 2 * val (c :: l)).
    destruct b; cbn [Z.b2z]; lia.
Qed.

Lemma normalized_zero l : normalized l -> val l = 0 -> l = [].
Proof.
  destruct l as [|b l]; [reflexivity|]. intros H Hv.
  pose proof (normalized_lower b l H). pose proof (pow2_pos (length l)). lia.
Qed.

Lemma normalized_length_le l1 l2 :
  normalized l1 -> val l1 <= val l2 -> (length l1 <= length l2)%nat.
Proof.
  intros H1 Hv. destruct l1 as [|b l1]; [simpl; lia|].
  pose proof (normalized_lower b l1 H1) as Hlo.
  pose proof (val_lt_pow2 l2) as Hhi.
  destruct (Nat.le_gt_cases (length (b :: l1)) (length l2)) as [|Hgt]; [assumption|].
  simpl in Hgt. assert (Hle : (length l2 <= length l1)%nat) by lia.
  apply pow2_le in Hle. lia.
Qed.

Lemma val_inj_length l1 l2 : length l1 = length l2 -> val l1 = val l2 -> l1 = l2.
Proof.
  revert l2. induction l1 as [|a l1 IH]; intros [|b l2] Hl Hv; simpl in Hl;
    try discriminate; [reflexivity|].
  cbn [val] in Hv. assert (a = b /\ val l1 = val l2) as [-> Hv'].
  { destruct a, b; cbn [Z.b2z] in Hv; split; try reflexivity; lia. }
  f_equal. apply IH; [lia | assumption].
Qed.

Lemma normalized_inj l1 l2 :
  normalized l1 -> normalized l2 -> val l1 = val l2 -> l1 = l2.
Proof.
  intros H1 H2 Hv. apply val_inj_length; [|assumption].
  apply Nat.le_antisymm; apply normalized_length_le; auto; lia.
Qed.

End Values.

(** ** The constructor and [append] *)

Section Construction.

Lemma wf_empty : wf (mk [] []).
Proof. split; [exact normalized_nil | constructor]. Qed.

Lemma append_wf a b : wf a -> wf (append a b).
Proof.
  intros [Hn Hf]. unfold append. destruct b; split; cbn [bits buf].
  - rewrite app_assoc. apply normalized_snoc.
  - constructor.
  - exact Hn.
  - apply Forall_app. split; [exact Hf | repeat constructor].
Qed.

Lemma append_all a b :
  bits (append a b) ++ buf (append a b) = (bits a ++ buf a) ++ [b].
Proof.
  unfold append. destruct b; cbn [bits buf].
  - now rewrite app_nil_r, app_assoc.
  - now rewrite app_assoc.
Qed.

Lemma fold_append_wf l : forall a, wf a -> wf (fold_left append l a).
Proof. induction l as [|b l IH]; intros a H; cbn; auto using append_wf. Qed.

Lemma fold_append_all l : forall a,
  bits (fold_left append l a) ++ buf (fold_left append l a) = (bits a ++ buf a) ++ l.
Proof.
  induction l as [|b l IH]; intros a; cbn [fold_left].
  - now rewrite app_nil_r.
  - rewrite IH, append_all, <- app_assoc. reflexivity.
Qed.

Lemma wf_val a : wf a -> val (bits a ++ buf a) = val (bits a).
Proof. intros [_ Hf]. rewrite val_app, (val_all_false _ Hf). lia. Qed.

Lemma init_wf s l : wf (__init__ s l).
Proof. unfold __init__. apply fold_append_wf, wf_empty. Qed.

Lemma of_bits_wf l : wf (of_bits l).
Proof. apply init_wf. Qed.

Lemma of_bits_all l : bits (of_bits l) ++ buf (of_bits l) = l.
Proof. unfold of_bits, __init__. now rewrite fold_append_all. Qed.

Lemma of_bits_val l : val (bits (of_bits l)) = val l.
Proof. rewrite <- (wf_val _ (of_bits_wf l)), of_bits_all. reflexivity. Qed.

Lemma of_bits_length l : (length (bits (of_bits l)) <= length l)%nat.
Proof.
  rewrite <- (of_bits_all l) at 2. rewrite length_app. lia.
Qed.

Lemma of_bits_normalized l : normalized l -> bits (of_bits l) = l.
Proof.
  intros H. apply normalized_inj; [apply of_bits_wf | exact H | apply of_bits_val].
Qed.

Lemma of_string_bits s :
  of_string s = of_bits (map (fun c => Ascii.eqb c "1"%char) (rev (list_ascii_of_string s))).
Proof.
  unfold of_string, of_bits, of_str, __init__. rewrite <- map_rev, map_map. reflexivity.
Qed.

Lemma init_of_bools l : bits (__init__ (Some (of_bools l)) None) = [].
Proof.
  assert (E : __init__ (Some (of_bools l)) None = of_bits (repeat false (length l))).
  { unfold of_bits, of_bools, __init__. f_equal. rewrite <- map_rev, map_map.
    rewrite <- (length_rev l).
    induction (rev l) as [|b r IH]; cbn [map repeat length];
      [reflexivity | now rewrite IH]. }
  rewrite E. apply normalized_zero; [apply of_bits_wf|].
  rewrite of_bits_val. apply val_repeat_false.
Qed.

Lemma new_bits : bits new = [].
Proof. reflexivity. Qed.

Lemma one_bits : bits (of_string "1") = [true].
Proof. reflexivity. Qed.

End Construction.

(** ** Ripple-carry addition *)

Section Addition.

Lemma sum_bit_parity a b c : sum_bit a b c = parity3 a b c.
Proof. destruct a, b, c; reflexivity. Qed.

Lemma carry_bit_majority a b c : carry_bit a b c = majority3 a b c.
Proof. destruct a, b, c; reflexivity. Qed.

Lemma full_adder a b c :
  Z.b2z (sum_bit a b c) + 2 * Z.b2z (carry_bit a b c) = Z.b2z a + Z.b2z b + Z.b2z c.
Proof. destruct a, b, c; reflexivity. Qed.

Lemma add_fold zs : forall out c,
  (let '(o, c') := fold_left add_step zs (out, c) in append o c')
  = fold_left append (ripple c zs) out.
Proof.
  induction zs as [|[a b] zs IH]; intros out c; cbn [fold_left ripple].
  - reflexivity.
  - cbn [add_step]. apply IH.
Qed.

Lemma add_ripple a b :
  __add__ a b = of_bits (ripple false (zip_longest (bits a) (bits b) false)).
Proof. unfold __add__. apply (add_fold _ new false). Qed.

Lemma val_ripple zs : forall c,
  val (ripple c zs) = Z.b2z c + val (map fst zs) + val (map snd zs).
Proof.
  induction zs as [|[a b] zs IH]; intros c; cbn [ripple map val fst snd].
  - lia.
  - rewrite IH. pose proof (full_adder a b c). lia.
Qed.

Lemma val_map_false (l : list bool) : val (map (fun _ => false) l) = 0.
Proof. induction l as [|a l IH]; cbn [map val Z.b2z]; lia. Qed.

Lemma val_zip_fst l1 : forall l2, val (map fst (zip_longest l1 l2 false)) = val l1.
Proof.
  induction l1 as [|a l1 IH]; intros l2.
  - cbn [zip_longest]. rewrite map_map. cbn [fst]. apply val_map_false.
  - destruct l2 as [|b l2]; cbn [zip_longest map fst val]; now rewrite IH.
Qed.

Lemma val_zip_snd l1 : forall l2, val (map snd (zip_longest l1 l2 false)) = val l2.
Proof.
  induction l1 as [|a l1 IH]; intros l2.
  - cbn [zip_longest]. rewrite map_map. cbn [snd]. now rewrite map_id.
  - destruct l2 as [|b l2]; cbn [zip_longest map snd val]; rewrite IH; reflexivity.
Qed.

Lemma nth_S_tl (x : list bool) i : nth (S i) x false = nth i (tl x) false.
Proof. destruct x; [destruct i|]; reflexivity. Qed.

Lemma nth_0_hd (x : list bool) : nth 0 x false = hd false x.
Proof. destruct x; reflexivity. Qed.

Lemma carry_in_S c x y i :
  carry_in c x y (S i)
  = carry_in (majority3 (hd false x) (hd false y) c) (tl x) (tl y) i.
Proof.
  induction i as [|i IH].
  - cbn [carry_in]. now rewrite !nth_0_hd.
  - change (carry_in c x y (S (S i)))
      with (majority3 (nth (S i) x false) (nth (S i) y false) (carry_in c x y (S i))).
    rewrite IH, !nth_S_tl. reflexivity.
Qed.

Lemma sum_at_S c x y i :
  sum_at c x y (S i)
  = sum_at (majority3 (hd false x) (hd false y) c) (tl x) (tl y) i.
Proof. unfold sum_at. now rewrite carry_in_S, !nth_S_tl. Qed.

Lemma zip_longest_step x y :
  (0 < Nat.max (length x) (length y))%nat ->
  zip_longest x y false = (hd false x, hd false y) :: zip_longest (tl x) (tl y) false.
Proof.
  destruct x as [|a x], y as [|b y]; cbn [length Nat.max]; try lia; intros _;
    cbn [zip_longest hd tl map]; reflexivity.
Qed.

Lemma ripple_positions n : forall x y c,
  Nat.max (length x) (length y) = n ->
  ripple c (zip_longest x y false)
  = map (sum_at c x y) (seq 0 n) ++ [carry_in c x y n].
Proof.
  induction n as [|n IH]; intros x y c Hn.
  - destruct x, y; cbn in Hn; try lia. reflexivity.
  - rewrite zip_longest_step by lia. cbn [ripple].
    rewrite (IH (tl x) (tl y)) by (destruct x, y; cbn in *; lia).
    cbn [seq map app]. rewrite <- seq_shift, map_map, carry_in_S.
    f_equal; [|f_equal].
    + unfold sum_at. cbn [carry_in]. now rewrite sum_bit_parity, !nth_0_hd.
    + rewrite carry_bit_majority. apply map_ext. intros i. now rewrite sum_at_S.
    + now rewrite carry_bit_majority.
Qed.

Lemma add_all a b :
  bits (__add__ a b) ++ buf (__add__ a b) = spec_add_bits (bits a) (bits b).
Proof.
  rewrite add_ripple, of_bits_all. unfold spec_add_bits. now apply ripple_positions.
Qed.

Lemma add_wf a b : wf (__add__ a b).
Proof. rewrite add_ripple. apply of_bits_wf. Qed.

Lemma add_val a b : val (bits (__add__ a b)) = val (bits a) + val (bits b).
Proof.
  rewrite add_ripple, of_bits_val, val_ripple, val_zip_fst, val_zip_snd.
  cbn [Z.b2z]. lia.
Qed.

End Addition.

(** ** Normalisation and subtraction *)

Section Subtraction.

Lemma last_default (l : list bool) d d' : l <> [] -> last l d = last l d'.
Proof.
  induction l as [|a [|b l] IH]; intros H; [congruence | reflexivity |].
  change (last (b :: l) d = last (b :: l) d'). apply IH. discriminate.
Qed.

Lemma removelast_length (l : list bool) : length (removelast l) = (length l - 1)%nat.
Proof.
  destruct l as [|a l]; [reflexivity|].
  rewrite (app_removelast_last false (l := a :: l)) at 2 by discriminate.
  rewrite length_app. cbn [length]. lia.
Qed.

Lemma pop_zeros_normalized n : forall l, (length l <= n)%nat -> normalized (pop_zeros n l).
Proof.
  induction n as [|n IH]; intros l Hl; cbn [pop_zeros].
  - destruct l; [exact normalized_nil | cbn in Hl; lia].
  - destruct l as [|a l]; [exact normalized_nil|].
    cbn [length Nat.ltb Nat.leb andb].
    destruct (last (a :: l) false) eqn:E; cbn [negb].
    + unfold normalized. now rewrite (last_default _ true false).
    + apply IH. rewrite removelast_length. cbn [length]. cbn [length] in Hl. lia.
Qed.

Lemma pop_zeros_val n : forall l, val (pop_zeros n l) = val l.
Proof.
  induction n as [|n IH]; intros l; cbn [pop_zeros]; [reflexivity|].
  destruct l as [|a l]; [reflexivity|].
  cbn [length Nat.ltb Nat.leb andb].
  destruct (last (a :: l) false) eqn:E; cbn [negb]; [reflexivity|].
  rewrite IH. rewrite (app_removelast_last false (l := a :: l)) at 2 by discriminate.
  rewrite E, val_app. cbn [val Z.b2z]. lia.
Qed.

Lemma remove_leading_zeros_wf a : wf (remove_leading_zeros a).
Proof.
  split; cbn [remove_leading_zeros bits buf].
  - now apply pop_zeros_normalized.
  - constructor.
Qed.

Lemma val_map_negb l : val (map negb l) = pow2 (length l) - 1 - val l.
Proof.
  induction l as [|b l IH]; cbn [map val length].
  - rewrite pow2_0. lia.
  - rewrite IH, pow2_S. destruct b; cbn [negb Z.b2z]; lia.
Qed.

Lemma zip_snd_pad l1 : forall l2, (length l2 <= length l1)%nat ->
  map snd (zip_longest l1 l2 false) = l2 ++ repeat false (length l1 - length l2).
Proof.
  induction l1 as [|a l1 IH]; intros l2 H.
  - destruct l2; [reflexivity | cbn in H; lia].
  - destruct l2 as [|b l2]; cbn [zip_longest map snd length Nat.sub app repeat].
    + f_equal. rewrite (IH []) by (cbn; lia). cbn. now rewrite Nat.sub_0_r.
    + f_equal. apply IH. cbn in H. lia.
Qed.

Lemma sub_comp a b : (length (bits b) <= length (bits a))%nat ->
  map (fun ab : bool * bool => negb (snd ab)) (zip_longest (bits a) (bits b) false)
  = complement a b.
Proof.
  intros H. unfold complement. rewrite <- zip_snd_pad by assumption.
  now rewrite map_map.
Qed.

Lemma complement_length a b : (length (bits b) <= length (bits a))%nat ->
  length (complement a b) = length (bits a).
Proof.
  intros H. unfold complement. rewrite length_map, length_app, repeat_length. lia.
Qed.

Lemma complement_val a b : (length (bits b) <= length (bits a))%nat ->
  val (complement a b) = pow2 (length (bits a)) - 1 - val (bits b).
Proof.
  intros H. pose proof (complement_length a b H) as Hl. unfold complement in *.
  rewrite val_map_negb. rewrite length_map in Hl. rewrite Hl.
  rewrite val_app, val_repeat_false. lia.
Qed.

Lemma normalized_length l k :
  normalized l -> pow2 k <= val l < pow2 (S k) -> length l = S k.
Proof.
  intros Hn [Hlo Hhi]. destruct l as [|b l].
  - cbn [val] in Hlo. pose proof (pow2_pos k). lia.
  - pose proof (normalized_lower b l Hn) as H1.
    pose proof (val_lt_pow2 (b :: l)) as H2. cbn [length] in *.
    destruct (Nat.lt_trichotomy (length l) k) as [Hlt|[->|Hgt]]; [|reflexivity|].
    + assert (Hle : (S (length l) <= k)%nat) by lia. apply pow2_le in Hle. lia.
    + assert (Hle : (S k <= length l)%nat) by lia. apply pow2_le in Hle. lia.
Qed.

Lemma sub_sum_val a b : (length (bits b) <= length (bits a))%nat ->
  val (bits (sub_sum a b)) = val (bits a) - val (bits b) + pow2 (length (bits a)).
Proof.
  intros H. unfold sub_sum. rewrite !add_val, of_bits_val, complement_val by assumption.
  rewrite one_bits. cbn [val Z.b2z]. lia.
Qed.

Lemma sub_sum_nonempty a b : (length (bits b) <= length (bits a))%nat ->
  bits (sub_sum a b) <> [].
Proof.
  intros H E. pose proof (sub_sum_val a b H) as Hv. rewrite E in Hv. cbn [val] in Hv.
  pose proof (val_lt_pow2 (bits b)). pose proof (val_nonneg (bits a)).
  apply pow2_le in H. lia.
Qed.

Lemma sub_unfold a b : (length (bits b) <= length (bits a))%nat ->
  __sub__ a b
  = Ok (remove_leading_zeros (mk (removelast (bits (sub_sum a b))) (buf (sub_sum a b)))).
Proof.
  intros H. unfold __sub__. rewrite (proj2 (Nat.leb_le _ _) H). cbn [negb].
  rewrite sub_comp by assumption. fold (sub_sum a b).
  pose proof (sub_sum_nonempty a b H) as Hne.
  destruct (bits (sub_sum a b)); [congruence | reflexivity].
Qed.

Lemma sub_sum_top a b :
  (length (bits b) <= length (bits a))%nat -> val (bits b) <= val (bits a) ->
  length (bits (sub_sum a b)) = S (length (bits a))
  /\ bits (sub_sum a b) = removelast (bits (sub_sum a b)) ++ [true].
Proof.
  intros H Hv. pose proof (sub_sum_val a b H) as Hs.
  pose proof (val_lt_pow2 (bits a)). pose proof (val_nonneg (bits b)).
  assert (Hn : normalized (bits (sub_sum a b))) by apply add_wf.
  split.
  - apply normalized_length; [exact Hn|]. rewrite pow2_S. lia.
  - pose proof (sub_sum_nonempty a b H) as Hne.
    rewrite (app_removelast_last true Hne) at 1. now rewrite Hn.
Qed.

Lemma sub_val a b :
  (length (bits b) <= length (bits a))%nat -> val (bits b) <= val (bits a) ->
  exists r, __sub__ a b = Ok r /\ wf r /\ val (bits r) = val (bits a) - val (bits b).
Proof.
  intros H Hv. eexists. split; [apply sub_unfold, H|]. split; [apply remove_leading_zeros_wf|].
  cbn [remove_leading_zeros bits]. rewrite pop_zeros_val.
  destruct (sub_sum_top a b H Hv) as [Hlen Htop].
  pose proof (sub_sum_val a b H) as Hs. rewrite Htop, val_app in Hs.
  rewrite removelast_length, Hlen in Hs. cbn [val Z.b2z] in Hs.
  replace (S (length (bits a)) - 1)%nat with (length (bits a)) in Hs by lia. lia.
Qed.

End Subtraction.

(** ** Relational operators *)

Section Comparison.

Lemma tuple_eq_iff x : forall y, tuple_eq x y = true <-> x = y.
Proof.
  induction x as [|a x IH]; intros [|b y]; cbn [tuple_eq]; split; intros H;
    try reflexivity; try discriminate.
  - apply andb_prop in H as [Hab Hxy]. apply eqb_prop in Hab. apply IH in Hxy. congruence.
  - injection H as -> ->. rewrite eqb_reflx. cbn [andb]. now apply IH.
Qed.

Lemma tuple_lt_app p : forall q s t, length p = length q ->
  tuple_lt (p ++ s) (q ++ t) = tuple_lt p q || (tuple_eq p q && tuple_lt s t).
Proof.
  induction p as [|a p IH]; intros [|b q] s t H; cbn [length] in H; try discriminate.
  - cbn [app tuple_lt tuple_eq andb orb]. now destruct s, t.
  - cbn [app tuple_lt tuple_eq]. destruct (Bool.eqb a b) eqn:E.
    + cbn [andb]. apply IH. lia.
    + cbn [andb]. now rewrite orb_false_r.
Qed.

Lemma tuple_lt_rev x : forall y, length x = length y ->
  tuple_lt (rev x) (rev y) = (val x <? val y).
Proof.
  induction x as [|a x IH]; intros [|b y] H; cbn [length] in H; try discriminate.
  - reflexivity.
  - cbn [rev val]. rewrite tuple_lt_app by (rewrite !length_rev; lia).
    rewrite IH by lia.
    assert (Heq : tuple_eq (rev x) (rev y) = true <-> val x = val y).
    { rewrite tuple_eq_iff. split; intros E.
      - apply (f_equal (@rev bool)) in E. rewrite !rev_involutive in E. congruence.
      - f_equal. apply val_inj_length; [lia | assumption]. }
    destruct (tuple_eq (rev x) (rev y)).
    + assert (E : val x = val y) by now apply Heq. rewrite E, Z.ltb_irrefl.
      cbn [orb andb tuple_lt]. destruct a, b; cbn [Bool.eqb negb andb Z.b2z];
        symmetry; [apply Z.ltb_ge | apply Z.ltb_ge | apply Z.ltb_lt | apply Z.ltb_ge]; lia.
    + assert (E : val x <> val y) by (intros E; apply Heq in E; discriminate).
      rewrite andb_false_l, orb_false_r.
      destruct (Z.ltb_spec (val x) (val y)); symmetry;
        [apply Z.ltb_lt | apply Z.ltb_ge]; destruct a, b; cbn [Z.b2z]; lia.
Qed.

Lemma lt_val a b : normalized (bits a) -> normalized (bits b) ->
  __lt__ a b = (val (bits a) <? val (bits b)).
Proof.
  intros Ha Hb. unfold __lt__, __len__.
  destruct (Nat.lt_trichotomy (length (bits a)) (length (bits b))) as [H|[H|H]].
  - rewrite (proj2 (Nat.ltb_lt _ _) H). cbn [orb]. symmetry. apply Z.ltb_lt.
    destruct (Z.lt_ge_cases (val (bits a)) (val (bits b))) as [|Hge]; [assumption|].
    apply (normalized_length_le _ _ Hb) in Hge. lia.
  - rewrite H, Nat.ltb_irrefl, Nat.eqb_refl. cbn [orb andb]. now apply tuple_lt_rev.
  - rewrite (proj2 (Nat.ltb_ge _ _)) by lia.
    rewrite (proj2 (Nat.eqb_neq _ _)) by lia. cbn [orb andb]. symmetry. apply Z.ltb_ge.
    destruct (Z.le_gt_cases (val (bits b)) (val (bits a))) as [|Hlt]; [assumption|].
    assert (Hle : val (bits a) <= val (bits b)) by lia.
    apply (normalized_length_le _ _ Ha) in Hle. lia.
Qed.

Lemma eq_val a b : normalized (bits a) -> normalized (bits b) ->
  __eq__ a b = (val (bits a) =? val (bits b)).
Proof.
  intros Ha Hb. unfold __eq__. destruct (Z.eqb_spec (val (bits a)) (val (bits b))) as [E|E].
  - apply tuple_eq_iff. now apply normalized_inj.
  - destruct (tuple_eq (bits a) (bits b)) eqn:T; [|reflexivity].
    apply tuple_eq_iff in T. congruence.
Qed.

Lemma ge_val r b : normalized (bits r) -> normalized (bits b) ->
  ge r b = (val (bits b) <=? val (bits r)).
Proof.
  intros Hr Hb. unfold ge, __le__. rewrite lt_val, eq_val by assumption.
  destruct (Z.ltb_spec (val (bits b)) (val (bits r)));
    destruct (Z.eqb_spec (val (bits b)) (val (bits r)));
    destruct (Z.leb_spec (val (bits b)) (val (bits r))); try reflexivity; lia.
Qed.

(** Whatever the operands, [r >= other] holds only when [other] has no
    more bits than [r]: the assertion of [__sub__] then passes. *)
Lemma ge_length r b : ge r b = true -> (length (bits b) <= length (bits r))%nat.
Proof.
  unfold ge, __le__, __lt__, __eq__, __len__. intros H.
  apply orb_prop in H as [H|H].
  - apply orb_prop in H as [H|H].
    + apply Nat.ltb_lt in H. lia.
    + apply andb_prop in H as [H _]. apply Nat.eqb_eq in H. lia.
  - apply tuple_eq_iff in H. rewrite H. lia.
Qed.

End Comparison.

(** ** Halving, doubling and rendering *)

Section Shifts.

Lemma fhalf_wf a : wf (fhalf a).
Proof. apply of_bits_wf. Qed.

Lemma twice_wf a : wf (twice a).
Proof. apply of_bits_wf. Qed.

Lemma fhalf_val a :
  val (bits a) = Z.b2z (isodd a) + 2 * val (bits (fhalf a)).
Proof.
  unfold fhalf, isodd. rewrite of_bits_val. destruct (bits a); cbn [tl val Z.b2z]; lia.
Qed.

Lemma fhalf_length a : (length (bits (fhalf a)) <= length (bits a) - 1)%nat.
Proof.
  unfold fhalf. etransitivity; [apply of_bits_length|]. destruct (bits a); cbn; lia.
Qed.

Lemma fhalf_bits a : normalized (bits a) -> bits (fhalf a) = tl (bits a).
Proof. intros H. apply of_bits_normalized, normalized_tl, H. Qed.

Lemma twice_val a : val (bits (twice a)) = 2 * val (bits a).
Proof. unfold twice. rewrite of_bits_val. cbn [val Z.b2z]. lia. Qed.

Lemma add_one_val a : val (bits (__add__ a (of_string "1"))) = val (bits a) + 1.
Proof. rewrite add_val, one_bits. cbn [val Z.b2z]. lia. Qed.

Lemma repr_nil a : bits a = [] -> __repr__ a = "0"%string.
Proof. unfold __repr__. now intros ->. Qed.

(** [repr(self) == '0'] holds for a value of zero only. *)
Lemma repr_zero_val a : String.eqb (__repr__ a) "0" = true -> val (bits a) = 0.
Proof.
  unfold __repr__. destruct (bits a) as [|x l]; [reflexivity|].
  cbn [length Nat.ltb Nat.leb negb]. intros H. apply String.eqb_eq in H.
  assert (Hr : x :: l = rev (rev (x :: l))) by (symmetry; apply rev_involutive).
  destruct (rev (x :: l)) as [|c [|d r]]; cbn [map string_of_list_ascii] in H.
  - discriminate Hr.
  - rewrite Hr. destruct c; [discriminate H | reflexivity].
  - discriminate H.
Qed.

Lemma repr_normalized a :
  normalized (bits a) -> bits a <> [] -> String.eqb (__repr__ a) "0" = false.
Proof.
  intros Hn Hne. destruct (String.eqb (__repr__ a) "0") eqn:E; [|reflexivity].
  apply repr_zero_val in E. now apply normalized_zero in E.
Qed.

End Shifts.

(** ** Division *)

Section Division.

Lemma div_nil fuel a b : bits a = [] -> div fuel a b = Ok (new, new).
Proof. intros H. destruct fuel; cbn [div]; now rewrite (repr_nil a H). Qed.

Lemma div_S fuel a b :
  String.eqb (__repr__ a) "0" = false ->
  div (S fuel) a b =
  let* qr := div fuel (fhalf a) b in
  let q := twice (fst qr) in
  let r := twice (snd qr) in
  let r := if isodd a then __add__ r (of_string "1") else r in
  if ge r b then let* r' := __sub__ r b in Ok (__add__ q (of_string "1"), r')
  else Ok (q, r).
Proof. intros H. cbn [div]. now rewrite H. Qed.

Lemma div_rem_wf a r : wf (div_rem a r).
Proof. unfold div_rem. destruct (isodd a); [apply add_wf | apply twice_wf]. Qed.

Lemma div_rem_val a r :
  val (bits (div_rem a r)) = 2 * val (bits r) + Z.b2z (isodd a).
Proof.
  unfold div_rem. destruct (isodd a); [rewrite add_one_val|]; rewrite twice_val;
    cbn [Z.b2z]; lia.
Qed.

(** [div] never raises and needs no more recursive calls than [self]
    has bits, whatever the divisor. *)
Lemma div_returns fuel : forall a b,
  (length (bits a) <= fuel)%nat ->
  exists q r, div fuel a b = Ok (q, r) /\ wf q /\ wf r.
Proof.
  induction fuel as [|fuel IH]; intros a b Hlen.
  - exists new, new. split; [|split; apply init_wf].
    apply div_nil. destruct (bits a); [reflexivity | cbn in Hlen; lia].
  - destruct (String.eqb (__repr__ a) "0") eqn:E.
    + exists new, new. split; [|split; apply init_wf]. cbn [div]. now rewrite E.
    + rewrite (div_S _ _ _ E).
      destruct (IH (fhalf a) b) as (q & r & -> & Hq & Hr).
      { pose proof (fhalf_length a). lia. }
      cbn [bind fst snd]. fold (div_rem a r).
      destruct (ge (div_rem a r) b) eqn:G.
      * apply ge_length in G. rewrite (sub_unfold _ _ G). cbn [bind].
        eexists _, _. split; [reflexivity|]. split; [apply add_wf|].
        apply remove_leading_zeros_wf.
      * eexists _, _. split; [reflexivity|]. split; [apply twice_wf | apply div_rem_wf].
Qed.

Lemma div_spec fuel : forall a b,
  (length (bits a) <= fuel)%nat -> normalized (bits b) -> val (bits b) <> 0 ->
  exists q r, div fuel a b = Ok (q, r) /\ wf q /\ wf r
    /\ val (bits q) * val (bits b) + val (bits r) = val (bits a)
    /\ 0 <= val (bits r) < val (bits b).
Proof.
  induction fuel as [|fuel IH]; intros a b Hlen Hb Hnz;
    pose proof (val_nonneg (bits b)) as Hb0.
  - exists new, new. assert (Ha : bits a = []).
    { destruct (bits a); [reflexivity | cbn in Hlen; lia]. }
    rewrite (div_nil _ _ _ Ha), Ha, new_bits. cbn [val].
    repeat split; try apply init_wf; lia.
  - destruct (String.eqb (__repr__ a) "0") eqn:E.
    + exists new, new. cbn [div]. rewrite E, (repr_zero_val _ E), new_bits. cbn [val].
      repeat split; try apply init_wf; lia.
    + rewrite (div_S _ _ _ E).
      destruct (IH (fhalf a) b) as (q & r & -> & Hq & Hr & Hqr & Hlo & Hhi); auto.
      { pose proof (fhalf_length a). lia. }
      cbn [bind fst snd]. fold (div_rem a r).
      pose proof (div_rem_val a r) as Hv. pose proof (fhalf_val a) as Hh.
      assert (Ho : 0 <= Z.b2z (isodd a) <= 1) by (destruct (isodd a); cbn; lia).
      rewrite ge_val by (try apply div_rem_wf; assumption).
      destruct (Z.leb_spec (val (bits b)) (val (bits (div_rem a r)))) as [Hge|Hlt].
      * destruct (sub_val (div_rem a r) b) as (r' & -> & Hr' & Hv'); [|assumption|].
        { now apply normalized_length_le. }
        cbn [bind]. eexists _, _. split; [reflexivity|].
        split; [apply add_wf|]. split; [assumption|].
        rewrite add_one_val, twice_val, Hv'. split; nia.
      * eexists _, _. split; [reflexivity|].
        split; [apply twice_wf|]. split; [apply div_rem_wf|].
        rewrite twice_val. split; nia.
Qed.

(** With a divisor of value zero the correction step always fires: the
    remainder is the dividend and the quotient has all bits set. *)
Lemma div_zero_spec fuel : forall a b,
  length (bits a) = fuel -> normalized (bits a) -> bits b = [] ->
  exists q r, div fuel a b = Ok (q, r) /\ wf q /\ wf r
    /\ val (bits q) = pow2 fuel - 1 /\ val (bits r) = val (bits a).
Proof.
  induction fuel as [|fuel IH]; intros a b Hlen Ha Hb.
  - exists new, new. assert (Ha0 : bits a = []).
    { destruct (bits a); [reflexivity | discriminate]. }
    rewrite (div_nil _ _ _ Ha0), Ha0, new_bits. cbn [val]. rewrite pow2_0.
    repeat split; try apply init_wf.
  - assert (Hne : bits a <> []) by (intros E; rewrite E in Hlen; discriminate).
    rewrite (div_S _ _ _ (repr_normalized a Ha Hne)).
    destruct (IH (fhalf a) b) as (q & r & -> & Hq & Hr & Hqv & Hrv); auto.
    { rewrite (fhalf_bits a Ha). destruct (bits a); cbn in *; [discriminate | lia]. }
    { apply fhalf_wf. }
    cbn [bind fst snd]. fold (div_rem a r).
    pose proof (div_rem_val a r) as Hv. pose proof (fhalf_val a) as Hh.
    assert (Hbn : normalized (bits b)) by (rewrite Hb; exact normalized_nil).
    rewrite ge_val by (try apply div_rem_wf; assumption).
    assert (Hle : (val (bits b) <=? val (bits (div_rem a r))) = true).
    { apply Z.leb_le. rewrite Hb. cbn [val]. apply val_nonneg. }
    rewrite Hle.
    destruct (sub_val (div_rem a r) b) as (r' & -> & Hr' & Hv').
    { rewrite Hb. cbn. lia. }
    { rewrite Hb. cbn [val]. apply val_nonneg. }
    cbn [bind]. eexists _, _. split; [reflexivity|].
    split; [apply add_wf|]. split; [assumption|].
    rewrite add_one_val, twice_val, Hv', Hqv, pow2_S, Hb. cbn [val]. lia.
Qed.

End Division.

(** ** Multiplication *)

Section Multiplication.

Lemma bind_ok {A B : Type} (c : result A) (k : A -> result B) r :
  bind c k = Ok r -> exists a, c = Ok a /\ k a = Ok r.
Proof. destruct c as [a| |]; cbn [bind]; intros H; [eauto | discriminate..]. Qed.

Lemma mul_S f a b :
  __mul__ (S f) a b =
  let n := Nat.max (__len__ a) (__len__ b) in
  if (n <=? 1)%nat then oldmul f a b
  else
    let m := (n / 2)%nat in
    let xl := __init__ (Some (of_bools (firstn m (bits a)))) None in
    let xr := __init__ (Some (of_bools (slice_step (bits a) m n))) None in
    let yl := __init__ (Some (of_bools (firstn m (bits b)))) None in
    let yr := __init__ (Some (of_bools (slice_step (bits b) m n))) None in
    let* p1 := __mul__ f xl yl in
    let* p2 := __mul__ f xr yr in
    let* p3 := __mul__ f (__add__ xl xr) (__add__ yl yr) in
    let raise_n := __init__ (Some (of_bools (repeat false (2 * m)))) None in
    let raise_m := __init__ (Some (of_bools (repeat false m))) None in
    let* d1 := __sub__ p3 p1 in
    let* d2 := __sub__ d1 p2 in
    Ok (__add__ (__add__ (__add__ raise_n p1) (__add__ raise_m d2)) p2).
Proof. reflexivity. Qed.

Lemma oldmul_S f a b :
  oldmul (S f) a b =
  if String.eqb (__repr__ b) "0" then Ok new
  else
    let* z := __mul__ f a (fhalf b) in
    if negb (isodd b) then Ok (twice z) else Ok (__add__ a (twice z)).
Proof. reflexivity. Qed.

(** Every value returned by [__mul__] or [oldmul] was built by [append]. *)
Lemma mul_wf fuel : forall a b r,
  (__mul__ fuel a b = Ok r -> wf r) /\ (oldmul fuel a b = Ok r -> wf r).
Proof.
  induction fuel as [|fuel IH]; intros a b r; [split; discriminate|].
  split.
  - rewrite mul_S. cbv zeta.
    destruct (Nat.max (__len__ a) (__len__ b) <=? 1)%nat; [apply IH|].
    intros H.
    apply bind_ok in H as (p1 & _ & H). apply bind_ok in H as (p2 & _ & H).
    apply bind_ok in H as (p3 & _ & H). apply bind_ok in H as (d1 & _ & H).
    apply bind_ok in H as (d2 & _ & H). injection H as <-. apply add_wf.
  - rewrite oldmul_S. destruct (String.eqb (__repr__ b) "0").
    + intros H. injection H as <-. apply init_wf.
    + intros H. apply bind_ok in H as (z & _ & H).
      destruct (negb (isodd b)); injection H as <-; [apply twice_wf | apply add_wf].
Qed.

Lemma add_nil a b : bits a = [] -> bits b = [] -> __add__ a b = mk [] [false].
Proof. intros Ha Hb. unfold __add__. now rewrite Ha, Hb. Qed.

Lemma sub_nil a b : bits a = [] -> bits b = [] -> __sub__ a b = Ok (mk [] []).
Proof. intros Ha Hb. unfold __sub__, __add__. now rewrite Ha, Hb. Qed.

Lemma mul_nil f a b : bits a = [] -> bits b = [] -> __mul__ (S (S f)) a b = Ok new.
Proof.
  intros Ha Hb. rewrite mul_S. unfold __len__. rewrite Ha, Hb. cbn [length Nat.max Nat.leb].
  rewrite oldmul_S. now rewrite (repr_nil b Hb).
Qed.

(** The recursive branch hands lists of booleans to the constructor in
    the position of the string [s]: no item equals ['1'], so both halves
    of both operands, and the two shifts, are zero, and so is the
    result. *)
Lemma mul_wide f a b :
  (2 <= Nat.max (__len__ a) (__len__ b))%nat ->
  __mul__ (S (S (S f))) a b = Ok (mk [] [false]).
Proof.
  intros H. rewrite mul_S. cbv zeta.
  rewrite (proj2 (Nat.leb_gt _ _)) by lia.
  rewrite !mul_nil;
    try apply init_of_bools;
    try (rewrite add_nil by apply init_of_bools; reflexivity).
  cbn [bind]. rewrite (sub_nil new new) by reflexivity. cbn [bind].
  rewrite (sub_nil (mk [] []) new) by reflexivity. cbn [bind].
  f_equal. apply add_nil; [|reflexivity].
  repeat (rewrite add_nil; [reflexivity|..]); apply init_of_bools || reflexivity.
Qed.

(** On operands of at most one bit, the only ones for which [__mul__]
    reaches it directly, [oldmul] is right. *)
Lemma mul_single f a b :
  (Nat.max (__len__ a) (__len__ b) <= 1)%nat -> normalized (bits b) ->
  exists r, __mul__ (S (S (S (S f)))) a b = Ok r
    /\ val (bits r) = val (bits a) * val (bits b).
Proof.
  intros H Hb. rewrite mul_S. cbv zeta. rewrite (proj2 (Nat.leb_le _ _) H).
  rewrite oldmul_S. unfold __len__ in H.
  destruct (bits b) as [|y [|y' l]] eqn:E; cbn [length] in H; [| |lia].
  - rewrite (repr_nil b E). exists new. split; [reflexivity|].
    rewrite new_bits. cbn [val]. lia.
  - assert (y = true) as -> by exact Hb.
    rewrite repr_normalized by (rewrite E; first [exact Hb | discriminate]).
    assert (Hh : bits (fhalf b) = []).
    { unfold fhalf. now rewrite E. }
    rewrite mul_S. cbv zeta. unfold __len__ at 1 2. rewrite Hh.
    rewrite (proj2 (Nat.leb_le _ _)) by (cbn [length]; lia).
    rewrite oldmul_S, (repr_nil _ Hh). cbn [bind]. unfold isodd. rewrite E. cbn [negb].
    eexists. split; [reflexivity|]. rewrite add_val, twice_val, new_bits.
    cbn [val Z.b2z]. lia.
Qed.

End Multiplication.

(** * The properties *)

(** C1 (the code does not do this): the product of the values for
    "11000" (24) and "1001" (9) is 216, yet [__mul__] returns an integer
    without bits, rendered "0", at every depth of calls that lets it
    return; likewise [mul("10", "1")] is zero and not "10".  The
    recursive branch always returns zero, see [mul_wide].  (216 is
    written "11011000" in binary; "11010000" is 208.) *)
Theorem mul_wide_operands_give_zero (f : nat) :
  __mul__ (3 + f) (of_string "11000") (of_string "1001") = Ok (mk [] [false])
  /\ __repr__ (mk [] [false]) = "0"%string
  /\ value (mk [] [false]) = 0
  /\ value (of_string "11000") * value (of_string "1001") = 216
  /\ value (of_string "11011000") = 216
  /\ value (of_string "11010000") = 208
  /\ __mul__ (3 + f) (of_string "10") (of_string "1") = Ok (mk [] [false])
  /\ value (of_string "10") = 2.
Proof.
  repeat split; try reflexivity; apply mul_wide; cbn; lia.
Qed.

(** C2: for a normalized divisor [b] of non-zero value, [div] returns
    a pair [(q, r)] with [value q * value b + value r = value a] and
    [0 <= value r < value b], once it is given as many recursive calls as
    [a] has bits. *)
Theorem div_correct (fuel : nat) (a b : t) :
  (length (bits a) <= fuel)%nat -> normalized (bits b) -> value b <> 0 ->
  exists q r, div fuel a b = Ok (q, r)
    /\ value q * value b + value r = value a
    /\ 0 <= value r < value b.
Proof.
  intros Hlen Hb Hnz. rewrite value_val in Hnz.
  destruct (div_spec fuel a b Hlen Hb Hnz) as (q & r & E & _ & _ & Hqr & Hr).
  exists q, r. rewrite !value_val. auto.
Qed.

Lemma div_correct_witness :
  (length (bits (of_string "11000")) <= 5)%nat
  /\ normalized (bits (of_string "1001"))
  /\ value (of_string "1001") <> 0
  /\ exists q r, div 5 (of_string "11000") (of_string "1001") = Ok (q, r)
       /\ value q * value (of_string "1001") + value r = value (of_string "11000")
       /\ 0 <= value r < value (of_string "1001").
Proof.
  assert (H1 : (length (bits (of_string "11000")) <= 5)%nat) by (vm_compute; lia).
  assert (H2 : normalized (bits (of_string "1001"))) by reflexivity.
  assert (H3 : value (of_string "1001") <> 0) by (vm_compute; discriminate).
  repeat split; try assumption.
  exact (div_correct 5 (of_string "11000") (of_string "1001") H1 H2 H3).
Defined.

(** C3: [__add__] is ripple-carry addition.  The value of the sum is the
    sum of the values; the bits it appends are, position by position, the
    three-way parity of the two operand bits and the carry-in, the carry-out
    being their majority, followed by the final carry; the stored [bits]
    are normalized, so a final carry that is false stays in [buf] and out
    of [bits]. *)
Theorem add_correct (a b : t) :
  let n := Nat.max (length (bits a)) (length (bits b)) in
  value (__add__ a b) = value a + value b
  /\ bits (__add__ a b) ++ buf (__add__ a b)
     = map (sum_at false (bits a) (bits b)) (seq 0 n) ++ [carry_in false (bits a) (bits b) n]
  /\ (forall x y c, sum_bit x y c = xorb (xorb x y) c
                    /\ carry_bit x y c = (2 <=? Nat.b2n x + Nat.b2n y + Nat.b2n c)%nat)
  /\ normalized (bits (__add__ a b))
  /\ all_false (buf (__add__ a b))
  /\ (length (bits (__add__ a b)) <= n + Nat.b2n (carry_in false (bits a) (bits b) n))%nat
  /\ __repr__ (__add__ (of_string "10010101") (of_string "10010101")) = "100101010"%string.
Proof.
  intros n. pose proof (add_all a b) as Hall. pose proof (add_wf a b) as [Hn Hf].
  unfold spec_add_bits in Hall. fold n in Hall.
  split; [rewrite !value_val; apply add_val|].
  split; [exact Hall|].
  split; [intros x y c; split; [apply sum_bit_parity | apply carry_bit_majority]|].
  split; [exact Hn|]. split; [exact Hf|]. split; [|reflexivity].
  pose proof (f_equal (@length bool) Hall) as Hlen.
  rewrite !length_app, length_map, length_seq in Hlen. cbn [length] in Hlen.
  destruct (carry_in false (bits a) (bits b) n) eqn:Ec; cbn [Nat.b2n]; [lia|].
  destruct (buf (__add__ a b)) as [|z l]; [|cbn [length] in Hlen; lia].
  rewrite app_nil_r in Hall. unfold normalized in Hn.
  rewrite Hall, last_last in Hn. discriminate.
Qed.

(** C4: under its precondition [value b <= value a] (with [b]
    normalized), [__sub__] returns a normalized integer of value
    [value a - value b].  The sum it forms is [a + comp + 1] where [comp]
    is the complement of [b] zero-extended to the [k] bits of [a], of value
    [2^k - 1 - value b]; that sum has exactly [k + 1] bits, the one at
    position [k] being true; the result is the lower [k] bits with the
    most significant false bits removed.  And [a - a] is zero for every
    [a]. *)
Theorem sub_correct :
  (forall a b,
      normalized (bits b) -> value b <= value a ->
      let k := length (bits a) in
      let comp := map negb (bits b ++ repeat false (k - length (bits b))) in
      let out := __add__ (__add__ a (of_bits comp)) (of_string "1") in
      exists r, __sub__ a b = Ok r
        /\ wf r
        /\ value r = value a - value b
        /\ length comp = k
        /\ val comp = pow2 k - 1 - value b
        /\ value out = value a - value b + pow2 k
        /\ length (bits out) = S k
        /\ nth k (bits out) false = true
        /\ bits r = pop_zeros k (firstn k (bits out)))
  /\ (forall a, __sub__ a a = Ok (mk [] [])).
Proof.
  split.
  - intros a b Hb Hv k comp out. rewrite !value_val in Hv.
    assert (Hlen : (length (bits b) <= length (bits a))%nat)
      by now apply normalized_length_le.
    change comp with (complement a b). change out with (sub_sum a b).
    destruct (sub_sum_top a b Hlen Hv) as [Hk Htop].
    assert (Hrl : removelast (bits (sub_sum a b)) = firstn k (bits (sub_sum a b))).
    { rewrite Htop at 2. rewrite firstn_app, firstn_all2.
      - rewrite removelast_length, Hk.
        replace (k - (S (length (bits a)) - 1))%nat with 0%nat by (unfold k; lia).
        cbn [firstn]. now rewrite app_nil_r.
      - rewrite removelast_length, Hk. unfold k. lia. }
    exists (remove_leading_zeros
              (mk (removelast (bits (sub_sum a b))) (buf (sub_sum a b)))).
    split; [now apply sub_unfold|]. split; [apply remove_leading_zeros_wf|].
    destruct (sub_val a b Hlen Hv) as (r & Er & _ & Hr).
    rewrite (sub_unfold a b Hlen) in Er. injection Er as Er. rewrite <- Er in Hr.
    rewrite !value_val.
    split; [exact Hr|]. split; [now apply complement_length|].
    split; [now apply complement_val|]. split; [now apply sub_sum_val|].
    split; [exact Hk|]. split.
    + rewrite Htop, app_nth2; rewrite removelast_length, Hk; unfold k.
      * replace (length (bits a) - (S (length (bits a)) - 1))%nat with 0%nat by lia.
        reflexivity.
      * lia.
    + cbn [remove_leading_zeros bits]. rewrite removelast_length, Hk, <- Hrl.
      f_equal. unfold k. lia.
  - intros a.
    destruct (sub_val a a (Nat.le_refl _) (Z.le_refl _)) as (r & Er & [Hn _] & Hr).
    rewrite (sub_unfold a a (Nat.le_refl _)) in Er |- *. injection Er as Er.
    rewrite <- Er in Hn, Hr. cbn [remove_leading_zeros bits] in Hn, Hr.
    unfold remove_leading_zeros. cbn [bits]. f_equal. f_equal.
    apply normalized_zero; [exact Hn | lia].
Qed.

Lemma sub_correct_witness :
  normalized (bits (of_string "1001"))
  /\ value (of_string "1001") <= value (of_string "11000")
  /\ exists r, __sub__ (of_string "11000") (of_string "1001") = Ok r
       /\ value r = value (of_string "11000") - value (of_string "1001").
Proof.
  assert (H1 : normalized (bits (of_string "1001"))) by reflexivity.
  assert (H2 : value (of_string "1001") <= value (of_string "11000"))
    by (vm_compute; discriminate).
  split; [exact H1|]. split; [exact H2|].
  destruct (proj1 sub_correct (of_string "11000") (of_string "1001") H1 H2)
    as (r & Er & _ & Hr & _).
  exists r. split; [exact Er | exact Hr].
Defined.

(** C5 (the code does not do this): [oldmul] is not a routine of its
    own, it hands [other.fhalf()] back to [__mul__], whose recursive
    branch returns zero.  On "10" and "10" (2 times 2) it returns an
    integer without bits, rendered "0", where the product is 4. *)
Theorem oldmul_two_by_two (f : nat) :
  oldmul (4 + f) (of_string "10") (of_string "10") = Ok (mk [] [false])
  /\ __repr__ (mk [] [false]) = "0"%string
  /\ value (mk [] [false]) = 0
  /\ value (of_string "10") * value (of_string "10") = 4.
Proof.
  split; [|repeat split; reflexivity].
  change (4 + f)%nat with (S (S (S (S f)))). rewrite oldmul_S.
  change (String.eqb (__repr__ (of_string "10")) "0") with false. cbv iota.
  rewrite mul_wide by (cbn; lia). reflexivity.
Qed.

(** C6, the claim as stated fails: 3 exceeds 2, and [AInt('10') -
    AInt('11')] returns the integer 1. *)
Lemma sub_smaller_minuend_returns :
  value (of_string "11") > value (of_string "10")
  /\ __sub__ (of_string "10") (of_string "11") = Ok (of_string "1")
  /\ ~ fails (__sub__ (of_string "10") (of_string "11")).
Proof.
  split; [reflexivity|]. split; [reflexivity|].
  intros [e He]. discriminate He.
Qed.

(** C6, amended: the only check of [__sub__] is the assertion on the
    numbers of bits.  It fails, with [AssertionError], when [other] has
    more bits than [self] (a normalized [other] is then the greater
    value), and it returns a value whenever [other] has no more bits than
    [self], also when [other] is the greater value. *)
Theorem sub_fails_on_longer_subtrahend :
  (forall a b,
      (length (bits a) < length (bits b))%nat -> normalized (bits b) ->
      value a < value b /\ __sub__ a b = Raise AssertionError)
  /\ (forall a b,
      (length (bits b) <= length (bits a))%nat -> returns (__sub__ a b)).
Proof.
  split.
  - intros a b Hlen Hb. split.
    + rewrite !value_val.
      destruct (Z.lt_ge_cases (val (bits a)) (val (bits b))) as [|Hge]; [assumption|].
      apply (normalized_length_le _ _ Hb) in Hge. lia.
    + unfold __sub__. now rewrite (proj2 (Nat.leb_gt _ _) Hlen).
  - intros a b Hlen. eexists. now apply sub_unfold.
Qed.

Lemma sub_fails_on_longer_subtrahend_witness :
  (length (bits (of_string "1")) < length (bits (of_string "11")))%nat
  /\ normalized (bits (of_string "11"))
  /\ value (of_string "1") < value (of_string "11")
  /\ __sub__ (of_string "1") (of_string "11") = Raise AssertionError.
Proof.
  assert (H1 : (length (bits (of_string "1")) < length (bits (of_string "11")))%nat)
    by (vm_compute; lia).
  assert (H2 : normalized (bits (of_string "11"))) by reflexivity.
  split; [exact H1|]. split; [exact H2|].
  exact (proj1 sub_fails_on_longer_subtrahend (of_string "1") (of_string "11") H1 H2).
Defined.

(** C7, the claim as stated fails: [AInt('1').div(AInt('0'))] returns
    the pair (1, 1). *)
Lemma div_by_zero_returns :
  value (of_string "0") = 0
  /\ div 1 (of_string "1") (of_string "0") = Ok (mk [true] [false], mk [true] [])
  /\ ~ fails (div 1 (of_string "1") (of_string "0")).
Proof.
  split; [reflexivity|]. split; [reflexivity|].
  intros [e He]. discriminate He.
Qed.

(** C7, amended: [div] has no check of the divisor.  With a divisor of
    value zero it returns, for a dividend [a] of [n] bits, the quotient
    [2^n - 1] and the remainder [a]. *)
Theorem div_zero_divisor (a b : t) :
  normalized (bits a) -> normalized (bits b) -> value b = 0 ->
  exists q r, div (length (bits a)) a b = Ok (q, r)
    /\ value q = pow2 (length (bits a)) - 1
    /\ value r = value a.
Proof.
  intros Ha Hb Hz. rewrite value_val in Hz.
  pose proof (normalized_zero _ Hb Hz) as Hnil.
  destruct (div_zero_spec (length (bits a)) a b eq_refl Ha Hnil)
    as (q & r & E & _ & _ & Hq & Hr).
  exists q, r. rewrite !value_val. auto.
Qed.

Lemma div_zero_divisor_witness :
  normalized (bits (of_string "101"))
  /\ normalized (bits (of_string "0"))
  /\ value (of_string "0") = 0
  /\ exists q r, div (length (bits (of_string "101"))) (of_string "101") (of_string "0")
                 = Ok (q, r)
       /\ value q = pow2 (length (bits (of_string "101"))) - 1
       /\ value r = value (of_string "101").
Proof.
  assert (H1 : normalized (bits (of_string "101"))) by reflexivity.
  assert (H2 : normalized (bits (of_string "0"))) by reflexivity.
  assert (H3 : value (of_string "0") = 0) by reflexivity.
  split; [exact H1|]. split; [exact H2|]. split; [exact H3|].
  exact (div_zero_divisor (of_string "101") (of_string "0") H1 H2 H3).
Defined.

(** C8, the claim as stated fails: ["2"] holds a character other than
    ['0'] and ['1'], and [AInt('2')] is built, as zero. *)
Lemma from_string_accepts_non_binary :
  non_binary "2"
  /\ from_string "2" = Ok (mk [] [false])
  /\ ~ fails (from_string "2").
Proof.
  split.
  - exists "2"%char. split; [left; reflexivity|]. split; discriminate.
  - split; [reflexivity|]. intros [e He]. discriminate He.
Qed.

(** C8, amended: construction from a string never fails.  Every
    character other than ['1'] is read as a false bit: the integer built
    is the one built from the bits [string_bits s], and its value is the
    value of that list. *)
Theorem from_string_total (s : string) :
  from_string s = Ok (of_bits (string_bits s))
  /\ value (of_bits (string_bits s)) = val (string_bits s)
  /\ normalized (bits (of_bits (string_bits s))).
Proof.
  split; [unfold from_string; now rewrite of_string_bits|].
  split; [rewrite value_val; apply of_bits_val | apply of_bits_wf].
Qed.

(** C9: every integer returned by the constructor (from a string or
    from bits), [__add__], [__sub__], [__mul__], [oldmul], [div], [fhalf]
    and [twice] has normalized [bits]: the last stored bit is true, and
    an integer of value zero stores no bit at all. *)
Theorem normalization_invariant :
  (forall s, normalized (bits (of_string s)))
  /\ (forall l, normalized (bits (of_bits l)))
  /\ (forall a b, normalized (bits (__add__ a b)))
  /\ (forall a b r, __sub__ a b = Ok r -> normalized (bits r))
  /\ (forall fuel a b r, __mul__ fuel a b = Ok r -> normalized (bits r))
  /\ (forall fuel a b r, oldmul fuel a b = Ok r -> normalized (bits r))
  /\ (forall fuel a b q r,
         div fuel a b = Ok (q, r) -> normalized (bits q) /\ normalized (bits r))
  /\ (forall a, normalized (bits (fhalf a)))
  /\ (forall a, normalized (bits (twice a)))
  /\ (forall a, normalized (bits a) -> (value a = 0 <-> bits a = [])).
Proof.
  repeat apply conj.
  - intros s. apply init_wf.
  - intros l. apply init_wf.
  - intros a b. apply add_wf.
  - intros a b r. unfold __sub__.
    destruct (negb _); [discriminate|].
    destruct (list_pop _); [|discriminate].
    intros H. injection H as <-. apply remove_leading_zeros_wf.
  - intros fuel a b r H. exact (proj1 (proj1 (mul_wf fuel a b r) H)).
  - intros fuel a b r H. exact (proj1 (proj2 (mul_wf fuel a b r) H)).
  - induction fuel as [|fuel IH]; intros a b q r; cbn [div];
      (destruct (String.eqb (__repr__ a) "0");
       [intros H; injection H as <- <-; split; apply init_wf|]);
      [discriminate|].
    intros H. apply bind_ok in H as ([q' r'] & _ & H). cbn [fst snd] in H.
    destruct (ge _ b).
    + apply bind_ok in H as (r2 & Hs & H). injection H as <- <-.
      split; [apply add_wf|]. revert Hs. unfold __sub__.
      destruct (negb _); [discriminate|].
      destruct (list_pop _); [|discriminate].
      intros H. injection H as <-. apply remove_leading_zeros_wf.
    + injection H as <- <-. split; [apply twice_wf|].
      destruct (isodd a); [apply add_wf | apply twice_wf].
  - intros a. apply fhalf_wf.
  - intros a. apply twice_wf.
  - intros a Ha. rewrite value_val. split; intros H.
    + now apply normalized_zero.
    + now rewrite H.
Qed.

Lemma normalization_invariant_witness :
  __sub__ (of_string "11000") (of_string "1001") = Ok (of_string "1111")
  /\ normalized (bits (of_string "1111"))
  /\ div 5 (of_string "11000") (of_string "1001") = Ok (of_string "10", of_string "110")
  /\ normalized (bits (of_string "10"))
  /\ normalized (bits (of_string "110")).
Proof.
  assert (H1 : __sub__ (of_string "11000") (of_string "1001") = Ok (of_string "1111"))
    by reflexivity.
  assert (H2 : div 5 (of_string "11000") (of_string "1001")
               = Ok (of_string "10", of_string "110")) by reflexivity.
  split; [exact H1|].
  split; [exact (proj1 (proj2 (proj2 (proj2 normalization_invariant))) _ _ _ H1)|].
  split; [exact H2|].
  exact (proj1 (proj2 (proj2 (proj2 (proj2 (proj2 (proj2 normalization_invariant))))))
               _ _ _ _ _ H2).
Defined.

(** C10: [div] returns a pair for every dividend and every divisor, a
    divisor of value zero included, without raising, within as many
    recursive calls as the dividend has bits. *)
Theorem div_terminates (a b : t) (k : nat) :
  exists q r, div (length (bits a) + k) a b = Ok (q, r)
    /\ ~ fails (div (length (bits a) + k) a b).
Proof.
  destruct (div_returns (length (bits a) + k) a b) as (q & r & E & _); [lia|].
  exists q, r. split; [exact E|]. rewrite E. intros [e He]. discriminate He.
Qed.

(** * Further properties of the class *)

(** ** Strings and stored bits *)

Section Rendering.

Lemma bit_char_one v : Ascii.eqb (bit_char v) "1"%char = v.
Proof. destruct v; reflexivity. Qed.

Lemma one_bit_char c : c = "0"%char \/ c = "1"%char ->
  bit_char (Ascii.eqb c "1"%char) = c.
Proof. intros [-> | ->]; reflexivity. Qed.

Lemma repr_bits a :
  __repr__ a = match bits a with
               | [] => "0"%string
               | _ :: _ => string_of_list_ascii (map bit_char (rev (bits a)))
               end.
Proof. unfold __repr__. destruct (bits a); reflexivity. Qed.

Lemma of_bits_snoc_false l : bits (of_bits (l ++ [false])) = bits (of_bits l).
Proof. unfold of_bits, __init__. rewrite fold_left_app. reflexivity. Qed.

Lemma pop_zeros_id n l : normalized l -> pop_zeros n l = l.
Proof.
  intros H. destruct n as [|n]; [reflexivity|]. cbn [pop_zeros].
  destruct l as [|a l]; [reflexivity|]. cbn [length Nat.ltb Nat.leb andb].
  unfold normalized in H. rewrite (last_default _ true false) in H by discriminate.
  now rewrite H.
Qed.

Lemma val_rev_parse l : forall acc,
  fold_left parse_step l acc
  = acc * pow2 (length l) + val (map (fun c => Ascii.eqb c "1"%char) (rev l)).
Proof.
  induction l as [|c l IH]; intros acc; cbn [fold_left length rev map].
  - rewrite pow2_0. cbn [val]. lia.
  - rewrite IH, map_app, val_app, length_map, length_rev, pow2_S.
    unfold parse_step. cbn [map val]. lia.
Qed.

End Rendering.

(** X1: rendering a normalized integer and building an integer from the
    rendering gives back the same stored bits, and the two integers
    compare equal. *)
Theorem repr_round_trip (a : t) :
  normalized (bits a) ->
  bits (of_string (__repr__ a)) = bits a
  /\ __eq__ (of_string (__repr__ a)) a = true.
Proof.
  intros Ha.
  assert (E : bits (of_string (__repr__ a)) = bits a).
  { rewrite repr_bits. destruct (bits a) as [|x l] eqn:Eb; [reflexivity|].
    rewrite of_string_bits, list_ascii_of_string_of_list_ascii.
    rewrite <- map_rev, rev_involutive, map_map.
    rewrite (map_ext _ (fun v => v) bit_char_one), map_id.
    now apply of_bits_normalized. }
  split; [exact E|]. unfold __eq__. rewrite E. now apply tuple_eq_iff.
Qed.

Lemma repr_round_trip_witness :
  normalized (bits (of_bits [false; true; true]))
  /\ bits (of_string (__repr__ (of_bits [false; true; true])))
     = bits (of_bits [false; true; true]).
Proof.
  assert (H : normalized (bits (of_bits [false; true; true]))) by reflexivity.
  split; [exact H|].
  exact (proj1 (repr_round_trip (of_bits [false; true; true]) H)).
Defined.

(** X2: for a string of ['0'] and ['1'] characters, the rendering of the
    integer built from it is the string without its leading zeros, and
    ["0"] when only zeros (or nothing) were given. *)
Theorem repr_of_string (s : string) :
  binary (list_ascii_of_string s) -> __repr__ (of_string s) = canonical s.
Proof.
  unfold canonical. rewrite of_string_bits.
  induction (list_ascii_of_string s) as [|c l IH]; intros Hb; [reflexivity|].
  inversion Hb as [|c' l' Hc Hl]; subst c' l'. cbn [rev strip_zeros].
  rewrite map_app. cbn [map]. destruct Hc as [-> | ->].
  - change (Ascii.eqb "0" "1") with false. change (Ascii.eqb "0" "0") with true.
    cbv iota. rewrite <- (IH Hl), !repr_bits, of_bits_snoc_false. reflexivity.
  - change (Ascii.eqb "1" "1") with true. change (Ascii.eqb "1" "0") with false.
    cbv iota. rewrite repr_bits, of_bits_normalized by apply normalized_snoc.
    destruct (map _ (rev l) ++ [true]) as [|x r] eqn:E.
    + destruct (map (fun c => Ascii.eqb c "1"%char) (rev l)); discriminate E.
    + rewrite <- E, rev_app_distr. cbn [rev app map bit_char]. f_equal. f_equal.
      rewrite <- map_rev, rev_involutive, map_map.
      clear -Hl. induction Hl as [|c l Hc _ IH]; [reflexivity|].
      cbn [map]. now rewrite (one_bit_char c Hc), IH.
Qed.

Lemma repr_of_string_witness :
  binary (list_ascii_of_string "0011010")
  /\ __repr__ (of_string "0011010") = "11010"%string.
Proof.
  assert (H : binary (list_ascii_of_string "0011010")).
  { repeat constructor; (left; reflexivity) || (right; reflexivity). }
  split; [exact H|]. exact (repr_of_string "0011010" H).
Defined.

(** X3: the value of the integer built from any string is the number
    read from the string most significant character first, each ['1']
    counting as one and every other character as zero; the empty string
    gives zero. *)
Theorem of_string_value (s : string) :
  value (of_string s) = parse s /\ value (of_string "") = 0.
Proof.
  split; [|reflexivity].
  rewrite value_val, of_string_bits, of_bits_val. unfold parse.
  rewrite val_rev_parse. lia.
Qed.

(** X4: [append] with its buffer and [remove_leading_zeros] agree: the
    bits stored after appending the items of [l] one by one are [l]
    without its most significant false bits, the removed false bits all
    wait in [buf], and nothing else is lost. *)
Theorem of_bits_strips (l : list bool) :
  bits (of_bits l) = bits (remove_leading_zeros (mk l []))
  /\ bits (of_bits l) ++ buf (of_bits l) = l
  /\ all_false (buf (of_bits l))
  /\ value (of_bits l) = val l.
Proof.
  split; [|split; [apply of_bits_all | split; [apply of_bits_wf|]]].
  - apply normalized_inj.
    + apply of_bits_wf.
    + apply remove_leading_zeros_wf.
    + cbn [remove_leading_zeros bits]. now rewrite pop_zeros_val, of_bits_val.
  - rewrite value_val. apply of_bits_val.
Qed.

(** X5: [remove_leading_zeros] keeps the value, leaves normalized bits
    and an empty buffer, changes nothing when the bits are normalized
    already, and so does nothing when run twice. *)
Theorem remove_leading_zeros_spec (a : t) :
  value (remove_leading_zeros a) = value a
  /\ normalized (bits (remove_leading_zeros a))
  /\ buf (remove_leading_zeros a) = []
  /\ (normalized (bits a) -> bits (remove_leading_zeros a) = bits a)
  /\ remove_leading_zeros (remove_leading_zeros a) = remove_leading_zeros a.
Proof.
  pose proof (remove_leading_zeros_wf a) as [Hn _].
  split; [rewrite !value_val; apply pop_zeros_val|].
  split; [exact Hn|]. split; [reflexivity|]. split.
  - intros H. now apply pop_zeros_id.
  - unfold remove_leading_zeros at 1. rewrite (pop_zeros_id _ _ Hn). reflexivity.
Qed.

Lemma remove_leading_zeros_spec_witness :
  normalized (bits (mk [true; true] [false]))
  /\ bits (remove_leading_zeros (mk [true; true] [false])) = [true; true].
Proof.
  assert (H : normalized (bits (mk [true; true] [false]))) by reflexivity.
  split; [exact H|].
  exact (proj1 (proj2 (proj2 (proj2 (remove_leading_zeros_spec (mk [true; true] [false])))))
               H).
Defined.

(** ** Order, halving, doubling and bit length *)

(** X6: on normalized integers [__lt__] is the order of the values. *)
Theorem lt_iff_value_lt (a b : t) :
  normalized (bits a) -> normalized (bits b) ->
  (__lt__ a b = true <-> value a < value b).
Proof.
  intros Ha Hb. rewrite !value_val, (lt_val a b Ha Hb). apply Z.ltb_lt.
Qed.

Lemma lt_iff_value_lt_witness :
  normalized (bits (of_string "1001"))
  /\ normalized (bits (of_string "11000"))
  /\ (__lt__ (of_string "1001") (of_string "11000") = true
      <-> value (of_string "1001") < value (of_string "11000")).
Proof.
  assert (H1 : normalized (bits (of_string "1001"))) by reflexivity.
  assert (H2 : normalized (bits (of_string "11000"))) by reflexivity.
  split; [exact H1|]. split; [exact H2|].
  exact (lt_iff_value_lt (of_string "1001") (of_string "11000") H1 H2).
Defined.

(** X7: [__eq__] compares the stored bits and nothing else (the buffer
    plays no part); on normalized integers it is equality of the
    values. *)
Theorem eq_iff_same_value (a b : t) :
  (__eq__ a b = true <-> bits a = bits b)
  /\ (normalized (bits a) -> normalized (bits b) ->
      (__eq__ a b = true <-> value a = value b)).
Proof.
  split; [apply tuple_eq_iff|].
  intros Ha Hb. rewrite !value_val, (eq_val a b Ha Hb). apply Z.eqb_eq.
Qed.

Lemma eq_iff_same_value_witness :
  normalized (bits (of_string "0110"))
  /\ normalized (bits (of_bits [false; true; true]))
  /\ (__eq__ (of_string "0110") (of_bits [false; true; true]) = true
      <-> value (of_string "0110") = value (of_bits [false; true; true])).
Proof.
  assert (H1 : normalized (bits (of_string "0110"))) by reflexivity.
  assert (H2 : normalized (bits (of_bits [false; true; true]))) by reflexivity.
  split; [exact H1|]. split; [exact H2|].
  exact (proj2 (eq_iff_same_value (of_string "0110") (of_bits [false; true; true])) H1 H2).
Defined.

(** X8: on normalized integers [__le__] is the order [<=] of the
    values, so any two of them are comparable one way or the other, and
    [r >= other], which Python answers with [other.__le__(r)], is
    [value other <= value r]. *)
Theorem le_iff_value_le (a b : t) :
  normalized (bits a) -> normalized (bits b) ->
  (__le__ a b = true <-> value a <= value b)
  /\ (ge a b = true <-> value b <= value a)
  /\ __le__ a b || __le__ b a = true.
Proof.
  intros Ha Hb. rewrite !value_val.
  assert (Hab : __le__ a b = (val (bits a) <=? val (bits b))) by now apply (ge_val b a).
  assert (Hba : __le__ b a = (val (bits b) <=? val (bits a))) by now apply (ge_val a b).
  unfold ge. rewrite Hab, Hba. split; [apply Z.leb_le|]. split; [apply Z.leb_le|].
  destruct (Z.leb_spec (val (bits a)) (val (bits b)));
    destruct (Z.leb_spec (val (bits b)) (val (bits a))); try reflexivity; lia.
Qed.

Lemma le_iff_value_le_witness :
  normalized (bits (of_string "1001"))
  /\ normalized (bits (of_string "11000"))
  /\ (__le__ (of_string "1001") (of_string "11000") = true
      <-> value (of_string "1001") <= value (of_string "11000")).
Proof.
  assert (H1 : normalized (bits (of_string "1001"))) by reflexivity.
  assert (H2 : normalized (bits (of_string "11000"))) by reflexivity.
  split; [exact H1|]. split; [exact H2|].
  exact (proj1 (le_iff_value_le (of_string "1001") (of_string "11000") H1 H2)).
Defined.

(** X9: whatever bits are stored, [fhalf] is the floor of the value
    divided by two and [isodd] is the parity of the value. *)
Theorem fhalf_isodd_value (a : t) :
  value (fhalf a) = value a / 2
  /\ isodd a = Z.odd (value a)
  /\ value a = 2 * value (fhalf a) + Z.b2z (isodd a).
Proof.
  rewrite !value_val. pose proof (fhalf_val a) as H.
  assert (Hb : 0 <= Z.b2z (isodd a) < 2) by (destruct (isodd a); cbn; lia).
  split; [|split].
  - apply (Z.div_unique_pos _ _ _ (Z.b2z (isodd a))); lia.
  - rewrite H, Z.odd_add_mul_2. now destruct (isodd a).
  - lia.
Qed.

(** X10: [twice] doubles the value and gives an even integer; halving
    the double of a normalized integer gives back its bits, and the
    double is the sum of the integer with itself. *)
Theorem twice_value (a : t) :
  value (twice a) = 2 * value a
  /\ isodd (twice a) = false
  /\ bits (twice a) = bits (__add__ a a)
  /\ (normalized (bits a) -> bits (fhalf (twice a)) = bits a).
Proof.
  rewrite !value_val. pose proof (twice_val a) as Ht.
  pose proof (fhalf_val (twice a)) as Hh. pose proof (val_nonneg (bits a)) as Hnn.
  assert (Ho : isodd (twice a) = false).
  { destruct (isodd (twice a)); [cbn [Z.b2z] in Hh; lia | reflexivity]. }
  rewrite Ho in Hh. cbn [Z.b2z] in Hh.
  split; [exact Ht|]. split; [exact Ho|]. split.
  - apply normalized_inj; [apply twice_wf | apply add_wf|]. rewrite Ht, add_val. lia.
  - intros Ha. apply normalized_inj; [apply fhalf_wf | exact Ha | lia].
Qed.

Lemma twice_value_witness :
  normalized (bits (of_string "101"))
  /\ bits (fhalf (twice (of_string "101"))) = bits (of_string "101").
Proof.
  assert (H : normalized (bits (of_string "101"))) by reflexivity.
  split; [exact H|].
  exact (proj2 (proj2 (proj2 (twice_value (of_string "101")))) H).
Defined.

(** X11: [__len__] of a normalized integer is its bit length: zero for
    the value zero, and otherwise one more than the binary logarithm of
    the value, that is [2^(len-1) <= value < 2^len]. *)
Theorem len_is_bit_length (a : t) :
  normalized (bits a) ->
  0 <= value a < pow2 (__len__ a)
  /\ (__len__ a = 0%nat <-> value a = 0)
  /\ (value a <> 0 -> Z.of_nat (__len__ a) = Z.log2 (value a) + 1).
Proof.
  intros Ha. rewrite !value_val. unfold __len__.
  pose proof (val_nonneg (bits a)) as H0. pose proof (val_lt_pow2 (bits a)) as H1.
  split; [lia|]. split.
  - split; intros H.
    + destruct (bits a); [reflexivity | discriminate].
    + now rewrite (normalized_zero _ Ha H).
  - intros Hnz. destruct (bits a) as [|x l] eqn:E; [cbn [val] in Hnz; lia|].
    pose proof (normalized_lower x l Ha) as Hlo. cbn [length] in *.
    assert (Hlog : Z.log2 (val (x :: l)) = Z.of_nat (length l)).
    { apply Z.log2_unique; [lia|].
      unfold pow2 in Hlo, H1. rewrite Nat2Z.inj_succ in H1. split; assumption. }
    rewrite Hlog. lia.
Qed.

Lemma len_is_bit_length_witness :
  normalized (bits (of_string "11000"))
  /\ 0 <= value (of_string "11000") < pow2 (__len__ (of_string "11000")).
Proof.
  assert (H : normalized (bits (of_string "11000"))) by reflexivity.
  split; [exact H|]. exact (proj1 (len_is_bit_length (of_string "11000") H)).
Defined.

(** ** Addition and subtraction together *)

(** X12: addition is commutative as a whole (bits and buffer), is
    associative on the stored bits, and adding an integer without bits
    to a normalized integer leaves its bits as they are. *)
Theorem add_comm_assoc (a b c : t) :
  __add__ a b = __add__ b a
  /\ bits (__add__ (__add__ a b) c) = bits (__add__ a (__add__ b c))
  /\ (normalized (bits a) -> bits (__add__ a new) = bits a
                             /\ bits (__add__ new a) = bits a).
Proof.
  assert (Hbits : forall x y, bits (__add__ x y) = bits (__add__ y x)).
  { intros x y. apply normalized_inj; try apply add_wf. rewrite !add_val. lia. }
  split; [|split].
  - assert (Hall : bits (__add__ a b) ++ buf (__add__ a b)
                   = bits (__add__ b a) ++ buf (__add__ b a)).
    { apply val_inj_length.
      - rewrite !add_all. unfold spec_add_bits.
        rewrite !length_app, !length_map, !length_seq. cbn [length]. lia.
      - rewrite !wf_val by apply add_wf. rewrite !add_val. lia. }
    rewrite (Hbits a b) in Hall. apply app_inv_head in Hall.
    specialize (Hbits a b).
    destruct (__add__ a b), (__add__ b a). cbn [bits buf] in *. congruence.
  - apply normalized_inj; try apply add_wf. rewrite !add_val. lia.
  - intros Ha. split; apply normalized_inj; try apply add_wf; try exact Ha;
      rewrite add_val, new_bits; cbn [val]; lia.
Qed.

Lemma add_comm_assoc_witness :
  normalized (bits (of_string "1001"))
  /\ bits (__add__ (of_string "1001") new) = bits (of_string "1001").
Proof.
  assert (H : normalized (bits (of_string "1001"))) by reflexivity.
  split; [exact H|].
  exact (proj1 (proj2 (proj2 (add_comm_assoc (of_string "1001") new new)) H)).
Defined.

(** X13: subtraction undoes addition and addition undoes subtraction:
    for normalized [a] and [b], [(a + b) - b] returns the bits of [a],
    and when [value b <= value a], [(a - b) + b] has the bits of [a]. *)
Theorem add_sub_round_trip (a b : t) :
  normalized (bits a) -> normalized (bits b) ->
  (exists r, __sub__ (__add__ a b) b = Ok r /\ bits r = bits a)
  /\ (value b <= value a ->
      exists d, __sub__ a b = Ok d /\ bits (__add__ d b) = bits a).
Proof.
  intros Ha Hb. pose proof (val_nonneg (bits a)) as Hnn. split.
  - destruct (sub_val (__add__ a b) b) as (r & Er & [Hr _] & Hv).
    + apply (normalized_length_le _ _ Hb). rewrite add_val. lia.
    + rewrite add_val. lia.
    + exists r. split; [exact Er|]. apply normalized_inj; [exact Hr | exact Ha|].
      rewrite Hv, add_val. lia.
  - rewrite !value_val. intros Hle.
    destruct (sub_val a b) as (d & Ed & _ & Hv).
    + now apply normalized_length_le.
    + exact Hle.
    + exists d. split; [exact Ed|]. apply normalized_inj; [apply add_wf | exact Ha|].
      rewrite add_val, Hv. lia.
Qed.

Lemma add_sub_round_trip_witness :
  normalized (bits (of_string "11000"))
  /\ normalized (bits (of_string "1001"))
  /\ exists r, __sub__ (__add__ (of_string "11000") (of_string "1001")) (of_string "1001")
               = Ok r
       /\ bits r = bits (of_string "11000").
Proof.
  assert (H1 : normalized (bits (of_string "11000"))) by reflexivity.
  assert (H2 : normalized (bits (of_string "1001"))) by reflexivity.
  split; [exact H1|]. split; [exact H2|].
  exact (proj1 (add_sub_round_trip (of_string "11000") (of_string "1001") H1 H2)).
Defined.

(** X14: the only way [__sub__] fails is its assertion, exactly when
    [other] stores more bits than [self]; the [pop] that removes the
    carry never meets an empty list. *)
Theorem sub_raises_only_assertion (a b : t) (e : exn) :
  __sub__ a b = Raise e ->
  e = AssertionError /\ (length (bits a) < length (bits b))%nat.
Proof.
  destruct (Nat.le_gt_cases (length (bits b)) (length (bits a))) as [Hle|Hgt].
  - rewrite (sub_unfold a b Hle). discriminate.
  - unfold __sub__. rewrite (proj2 (Nat.leb_gt _ _) Hgt). cbn [negb].
    intros H. injection H as <-. split; [reflexivity | exact Hgt].
Qed.

Lemma sub_raises_only_assertion_witness :
  __sub__ (of_string "1") (of_string "11") = Raise AssertionError
  /\ AssertionError = AssertionError
  /\ (length (bits (of_string "1")) < length (bits (of_string "11")))%nat.
Proof.
  assert (H : __sub__ (of_string "1") (of_string "11") = Raise AssertionError)
    by reflexivity.
  split; [exact H|].
  exact (sub_raises_only_assertion (of_string "1") (of_string "11") AssertionError H).
Defined.

(** ** Quotient, remainder and the depth of [div] *)

Section DivisionDepth.

Lemma div_more_fuel fuel : forall a b,
  (length (bits a) <= fuel)%nat -> div (S fuel) a b = div fuel a b.
Proof.
  induction fuel as [|fuel IH]; intros a b Hlen.
  - assert (Ha : bits a = []) by (destruct (bits a); [reflexivity | cbn in Hlen; lia]).
    now rewrite !div_nil.
  - destruct (String.eqb (__repr__ a) "0") eqn:E.
    + cbn [div]. now rewrite E.
    + rewrite (div_S (S fuel) a b E), (div_S fuel a b E), IH; [reflexivity|].
      pose proof (fhalf_length a). lia.
Qed.

Lemma div_surplus_fuel k : forall a b,
  div (length (bits a) + k) a b = div (length (bits a)) a b.
Proof.
  induction k as [|k IH]; intros a b.
  - now rewrite Nat.add_0_r.
  - rewrite Nat.add_succ_r, div_more_fuel by lia. apply IH.
Qed.

Lemma div_too_deep fuel : forall a b,
  normalized (bits a) -> (fuel < length (bits a))%nat -> div fuel a b = OutOfFuel.
Proof.
  induction fuel as [|fuel IH]; intros a b Ha Hlen;
    (assert (Hne : bits a <> []) by (intros E; rewrite E in Hlen; cbn in Hlen; lia)).
  - cbn [div]. now rewrite (repr_normalized a Ha Hne).
  - rewrite (div_S _ _ _ (repr_normalized a Ha Hne)), IH; [reflexivity | apply fhalf_wf|].
    rewrite (fhalf_bits a Ha). destruct (bits a); cbn [tl length] in *; lia.
Qed.

End DivisionDepth.

(** X15: for a normalized divisor of non-zero value, [__floordiv__] and
    [__mod__] return the quotient and the remainder of the values as
    integer division defines them. *)
Theorem floordiv_mod_value (fuel : nat) (a b : t) :
  (length (bits a) <= fuel)%nat -> normalized (bits b) -> value b <> 0 ->
  exists q r,
    __floordiv__ fuel a b = Ok q /\ __mod__ fuel a b = Ok r
    /\ value q = value a / value b
    /\ value r = value a mod value b.
Proof.
  intros Hlen Hb Hnz. rewrite !value_val in *.
  destruct (div_spec fuel a b Hlen Hb Hnz) as (q & r & E & _ & _ & Hqr & Hr).
  exists q, r. unfold __floordiv__, __mod__. rewrite E. cbn [bind fst snd].
  rewrite !value_val. split; [reflexivity|]. split; [reflexivity|]. split.
  - apply (Z.div_unique_pos _ _ _ (val (bits r))); lia.
  - apply (Z.mod_unique_pos _ _ (val (bits q))); lia.
Qed.

Lemma floordiv_mod_value_witness :
  (length (bits (of_string "11000")) <= 5)%nat
  /\ normalized (bits (of_string "1001"))
  /\ value (of_string "1001") <> 0
  /\ exists q r,
       __floordiv__ 5 (of_string "11000") (of_string "1001") = Ok q
       /\ __mod__ 5 (of_string "11000") (of_string "1001") = Ok r
       /\ value q = value (of_string "11000") / value (of_string "1001")
       /\ value r = value (of_string "11000") mod value (of_string "1001").
Proof.
  assert (H1 : (length (bits (of_string "11000")) <= 5)%nat) by (vm_compute; lia).
  assert (H2 : normalized (bits (of_string "1001"))) by reflexivity.
  assert (H3 : value (of_string "1001") <> 0) by (vm_compute; discriminate).
  split; [exact H1|]. split; [exact H2|]. split; [exact H3|].
  exact (floordiv_mod_value 5 (of_string "11000") (of_string "1001") H1 H2 H3).
Defined.

(** X16: the recursion of [div] on a normalized dividend is exactly as
    deep as the dividend has bits: with fewer recursive calls allowed it
    does not finish, and any surplus of allowed calls changes nothing in
    what it returns. *)
Theorem div_depth (fuel : nat) (a b : t) :
  normalized (bits a) ->
  (div fuel a b = OutOfFuel <-> (fuel < length (bits a))%nat)
  /\ (forall k, div (length (bits a) + k) a b = div (length (bits a)) a b).
Proof.
  intros Ha. split; [|intros k; apply div_surplus_fuel]. split.
  - intros H. destruct (Nat.lt_ge_cases fuel (length (bits a))) as [|Hge]; [assumption|].
    destruct (div_returns fuel a b Hge) as (q & r & E & _). congruence.
  - now apply div_too_deep.
Qed.

Lemma div_depth_witness :
  normalized (bits (of_string "11000"))
  /\ (div 4 (of_string "11000") (of_string "1001") = OutOfFuel
      <-> (4 < length (bits (of_string "11000")))%nat).
Proof.
  assert (H : normalized (bits (of_string "11000"))) by reflexivity.
  split; [exact H|].
  exact (proj1 (div_depth 4 (of_string "11000") (of_string "1001") H)).
Defined.

(** ** Multiplication on small operands *)

Section SmallProducts.

Lemma fhalf_short b : (length (bits b) <= 1)%nat -> bits (fhalf b) = [].
Proof.
  intros H. pose proof (fhalf_length b). destruct (bits (fhalf b)); [reflexivity|].
  cbn [length] in *. lia.
Qed.

Lemma mul_small f a b :
  (Nat.max (__len__ a) (__len__ b) <= 1)%nat ->
  __mul__ (4 + f) a b =
  if String.eqb (__repr__ b) "0" then Ok new
  else if negb (isodd b) then Ok (twice new)
       else Ok (__add__ a (twice new)).
Proof.
  intros H. change (4 + f)%nat with (S (S (S (S f)))).
  rewrite mul_S. cbv zeta. rewrite (proj2 (Nat.leb_le _ _) H), oldmul_S.
  destruct (String.eqb (__repr__ b) "0"); [reflexivity|].
  unfold __len__ in H.
  assert (Hh : bits (fhalf b) = []) by (apply fhalf_short; lia).
  rewrite mul_S. cbv zeta. unfold __len__ at 1 2. rewrite Hh.
  rewrite (proj2 (Nat.leb_le _ _)) by (cbn [length]; lia).
  rewrite oldmul_S, (repr_nil _ Hh). reflexivity.
Qed.

Lemma twice_new_bits : bits (twice new) = [].
Proof. reflexivity. Qed.

End SmallProducts.

(** X17: [__mul__] never raises, whatever its operands: no subtraction
    inside it trips the assertion, and a depth of four calls is enough
    for it to return a normalized integer. *)
Theorem mul_never_raises (f : nat) (a b : t) :
  exists r, __mul__ (4 + f) a b = Ok r /\ normalized (bits r).
Proof.
  assert (H : exists r, __mul__ (4 + f) a b = Ok r).
  { destruct (Nat.le_gt_cases (Nat.max (__len__ a) (__len__ b)) 1) as [Hs|Hw].
    - rewrite (mul_small f a b Hs).
      destruct (String.eqb (__repr__ b) "0"); [eauto|]. destruct (negb (isodd b)); eauto.
    - eexists. apply (mul_wide (S f)). lia. }
  destruct H as (r & E). exists r. split; [exact E|].
  exact (proj1 (proj1 (mul_wf _ a b r) E)).
Qed.

(** X18: on operands of at most one stored bit each, [__mul__] returns
    the product of the values. *)
Theorem mul_single_bit (f : nat) (a b : t) :
  (Nat.max (__len__ a) (__len__ b) <= 1)%nat ->
  exists r, __mul__ (4 + f) a b = Ok r /\ value r = value a * value b.
Proof.
  intros H. rewrite (mul_small f a b H). unfold __len__ in H.
  destruct (String.eqb (__repr__ b) "0") eqn:E.
  - exists new. split; [reflexivity|]. rewrite !value_val, (repr_zero_val b E), new_bits.
    cbn [val]. lia.
  - assert (Hb : bits b = [true]).
    { destruct (bits b) as [|x [|y l]] eqn:Eb; cbn [length] in H; [| |lia].
      - now rewrite (repr_nil b Eb) in E.
      - destruct x; [reflexivity|]. unfold __repr__ in E. rewrite Eb in E. discriminate E. }
    unfold isodd. rewrite Hb. cbn [negb]. eexists. split; [reflexivity|].
    rewrite !value_val, add_val, twice_new_bits, Hb. cbn [val Z.b2z]. lia.
Qed.

Lemma mul_single_bit_witness :
  (Nat.max (__len__ (of_string "1")) (__len__ (of_string "1")) <= 1)%nat
  /\ exists r, __mul__ 4 (of_string "1") (of_string "1") = Ok r
       /\ value r = value (of_string "1") * value (of_string "1").
Proof.
  assert (H : (Nat.max (__len__ (of_string "1")) (__len__ (of_string "1")) <= 1)%nat)
    by (vm_compute; lia).
  split; [exact H|]. exact (mul_single_bit 0 (of_string "1") (of_string "1") H).
Defined.

(** X19: a product with an operand that stores no bit is an integer
    that stores no bit, on either side. *)
Theorem mul_zero (f : nat) (a b : t) :
  bits a = [] \/ bits b = [] ->
  exists r, __mul__ (4 + f) a b = Ok r /\ bits r = [] /\ value r = 0.
Proof.
  intros H.
  assert (Hr : exists r, __mul__ (4 + f) a b = Ok r /\ bits r = []).
  { destruct (Nat.le_gt_cases (Nat.max (__len__ a) (__len__ b)) 1) as [Hs|Hw].
    - rewrite (mul_small f a b Hs).
      destruct (String.eqb (__repr__ b) "0") eqn:E; [exists new; split; reflexivity|].
      destruct (negb (isodd b)); [exists (twice new); split; reflexivity|].
      eexists. split; [reflexivity|]. destruct H as [Ha | Hb].
      + now rewrite add_nil.
      + rewrite (repr_nil b Hb) in E. discriminate E.
    - eexists. split; [apply (mul_wide (S f)); lia | reflexivity]. }
  destruct Hr as (r & E & Hnil). exists r. split; [exact E|]. split; [exact Hnil|].
  now rewrite value_val, Hnil.
Qed.

Lemma mul_zero_witness :
  (bits (of_string "101") = [] \/ bits (of_string "0") = [])
  /\ exists r, __mul__ 4 (of_string "101") (of_string "0") = Ok r
       /\ bits r = [] /\ value r = 0.
Proof.
  assert (H : bits (of_string "101") = [] \/ bits (of_string "0") = [])
    by (right; reflexivity).
  split; [exact H|]. exact (mul_zero 0 (of_string "101") (of_string "0") H).
Defined.

(** ** The constructor on a list in the place of the string, and
       subtraction wherever its assertion passes *)

Section Leftovers.

Lemma fold_append_false n : forall f,
  fold_left append (repeat false n) (mk [] f) = mk [] (f ++ repeat false n).
Proof.
  induction n as [|n IH]; intros f; cbn [repeat fold_left].
  - now rewrite app_nil_r.
  - unfold append at 2. cbn [bits buf]. rewrite IH, <- app_assoc. reflexivity.
Qed.

Lemma eq_one_bools l : map eq_one (rev (of_bools l)) = repeat false (length l).
Proof.
  unfold of_bools. rewrite <- map_rev, map_map, <- (length_rev l).
  induction (rev l) as [|b r IH]; cbn [map repeat length]; [reflexivity | now rewrite IH].
Qed.

End Leftovers.

(** X20: the constructor compares every item of its first argument with
    the string ['1'].  Handed a list of booleans there, as [__mul__] does
    for the halves of its operands, it finds no such item: all the bits
    go to the buffer and the integer built has no bit and the value zero,
    whatever the booleans are. *)
Theorem init_of_bool_list (l : list bool) :
  __init__ (Some (of_bools l)) None = mk [] (repeat false (length l))
  /\ value (__init__ (Some (of_bools l)) None) = 0
  /\ __repr__ (__init__ (Some (of_bools l)) None) = "0"%string.
Proof.
  assert (E : __init__ (Some (of_bools l)) None = mk [] (repeat false (length l))).
  { unfold __init__. rewrite eq_one_bools. apply (fold_append_false _ []). }
  rewrite E. repeat split.
Qed.

(** X21: whenever [other] stores no more bits than [self], normalized or
    not, [__sub__] returns, and what it returns is the sum
    [s = value self - value other + 2^k], [k] the number of bits of [self],
    with its most significant set bit removed.  (Within the precondition
    that bit is the one at position [k]; outside it, it is a lower one and
    the result is not the difference.) *)
Theorem sub_value_general (a b : t) :
  (length (bits b) <= length (bits a))%nat ->
  let s := value a - value b + pow2 (length (bits a)) in
  exists r, __sub__ a b = Ok r
    /\ 0 < s
    /\ value r = s - 2 ^ Z.log2 s
    /\ normalized (bits r).
Proof.
  intros Hlen s. unfold s. rewrite !value_val. clear s.
  exists (remove_leading_zeros
            (mk (removelast (bits (sub_sum a b))) (buf (sub_sum a b)))).
  split; [now apply sub_unfold|].
  pose proof (sub_sum_val a b Hlen) as Hs. pose proof (sub_sum_nonempty a b Hlen) as Hne.
  assert (Hn : normalized (bits (sub_sum a b))) by apply add_wf.
  rewrite <- Hs.
  assert (Htop : bits (sub_sum a b) = removelast (bits (sub_sum a b)) ++ [true]).
  { rewrite (app_removelast_last true Hne) at 1. now rewrite Hn. }
  set (rl := removelast (bits (sub_sum a b))) in *.
  assert (Hv : val (bits (sub_sum a b)) = val rl + pow2 (length rl)).
  { rewrite Htop, val_app. cbn [val Z.b2z]. lia. }
  pose proof (val_nonneg rl) as H0. pose proof (val_lt_pow2 rl) as H1.
  pose proof (pow2_pos (length rl)) as Hp.
  assert (Hlog : Z.log2 (val (bits (sub_sum a b))) = Z.of_nat (length rl)).
  { apply Z.log2_unique; [lia|]. rewrite <- Nat2Z.inj_succ.
    change (pow2 (length rl) <= val (bits (sub_sum a b)) < pow2 (S (length rl))).
    rewrite pow2_S. lia. }
  split; [lia|]. split; [|apply remove_leading_zeros_wf].
  rewrite Hlog, value_val. cbn [remove_leading_zeros bits]. rewrite pop_zeros_val.
  change (2 ^ Z.of_nat (length rl)) with (pow2 (length rl)). lia.
Qed.

Lemma sub_value_general_witness :
  (length (bits (of_string "11")) <= length (bits (of_string "10")))%nat
  /\ exists r, __sub__ (of_string "10") (of_string "11") = Ok r
       /\ value r
          = value (of_string "10") - value (of_string "11")
            + pow2 (length (bits (of_string "10")))
            - 2 ^ Z.log2 (value (of_string "10") - value (of_string "11")
                          + pow2 (length (bits (of_string "10")))).
Proof.
  assert (H : (length (bits (of_string "11")) <= length (bits (of_string "10")))%nat)
    by (vm_compute; lia).
  split; [exact H|].
  destruct (sub_value_general (of_string "10") (of_string "11") H) as (r & E & _ & Hv & _).
  exists r. split; [exact E | exact Hv].
Defined.

(** ** The tests of the source, run on the model *)

Example test_add0 :
  __repr__ (__add__ (of_string "10") (of_string "01")) = "11"%string
  /\ __repr__ (__add__ (of_string "01") (of_string "10")) = "11"%string.
Proof. split; reflexivity. Qed.

Example test_sub1 :
  (let* d := __sub__ (of_string "10010101") (of_string "10010101") in Ok (__repr__ d))
  = Ok "0"%string.
Proof. reflexivity. Qed.

Example test_sub2 :
  (let* d := __sub__ (of_string "11000") (of_string "1001") in Ok (__eq__ d (of_string "1111")))
  = Ok true.
Proof. reflexivity. Qed.

Example test_div1 :
  (let* q := __floordiv__ 8 (of_string "10010101") (of_string "10010101") in Ok (__repr__ q))
  = Ok "1"%string.
Proof. reflexivity. Qed.

Example test_div3 :
  div 5 (of_string "11000") (of_string "1001") = Ok (of_string "10", of_string "110").
Proof. reflexivity. Qed.

(** [test_mul1] and [test_mul2] do not pass. *)
Example test_mul1_fails :
  (let* p := __mul__ 3 (of_string "10010101") (of_string "10") in Ok (__repr__ p))
  = Ok "0"%string.
Proof. reflexivity. Qed.

Example test_mul2_fails :
  (let* p := __mul__ 3 (of_string "11000") (of_string "1001") in
  Ok (__eq__ p (of_string "11011000")))
  = Ok false.
Proof. reflexivity. Qed.
